(** * Round-robin HTTP load balancer: flat pool and target groups

    A shallow embedding of the two Go programs of the repository:

    - [lb-notg/lb.go]: one flat pool of servers with a persistent rotation
      index ([Module Flat]);
    - the target-group variant: one pool per exact request path
      ([Module Groups]).

    Both programs share the [Server] type and the health probe
    [isServerHealthy], whose text is the same in the two files.

    The outside world (the HTTP client used by the probe, the clock, the
    reverse proxy and the response writer) is modelled by a trace of events,
    threaded through the handlers; the answers of the network are drawn from
    an oracle that may depend on everything that happened before. *)

From Stdlib Require Import ZArith Lia.
From stdpp Require Import base numbers list strings.

Local Open Scope Z_scope.

(** ** Go runtime: integers, slices, panics *)

(** A computation either returns or panics (index out of range, integer
    division by zero). *)
Inductive outcome (A : Type) : Type :=
| Ok (a : A)
| Panic.
Arguments Ok {A} a.
Arguments Panic {A}.

Definition obind {A B : Type} (k : A -> outcome B) (m : outcome A) : outcome B :=
  match m with
  | Ok a => k a
  | Panic => Panic
  end.

#[global] Instance outcome_ret : MRet outcome := fun _ a => Ok a.
#[global] Instance outcome_bind : MBind outcome := fun _ _ k m => obind k m.
#[global] Instance outcome_fmap : FMap outcome := fun _ _ f m => obind (fun a => Ok (f a)) m.

(** Go's [int] on a 64-bit platform. *)
Definition int_min : Z := - 2 ^ 63.
Definition int_max : Z := 2 ^ 63 - 1.

(** Two's complement wrap-around of an arithmetic result. *)
Definition wrap (z : Z) : Z := (z + 2 ^ 63) mod 2 ^ 64 - 2 ^ 63.

(** [a + b] on [int]. *)
Definition int_add (a b : Z) : Z := wrap (a + b).

(** [a % b] on [int]: truncated remainder, panics when the divisor is zero. *)
Definition int_rem (a b : Z) : outcome Z :=
  if b =? 0 then Panic else Ok (Z.rem a b).

(** [len(s)] of a slice. *)
Definition len {A : Type} (s : list A) : Z := Z.of_nat (length s).

(** [s[i]] on a slice: panics when [i] is out of range. *)
Definition at_index {A : Type} (s : list A) (i : Z) : outcome A :=
  if i <? 0 then Panic
  else match s !! Z.to_nat i with
       | Some x => Ok x
       | None => Panic
       end.

(** [fmt.Sprintf("/%s%s", a, b)]. *)
Definition Sprintf_slash (a b : string) : string := "/" +:+ a +:+ b.

(** ** Data shared by the two programs *)

(** The fields of [url.URL] that the programs read or write. *)
Record URL : Type := mkURL {
  Scheme : string;
  Host : string;
  Path : string
}.

Definition set_Path (u : URL) (p : string) : URL :=
  {| Scheme := Scheme u; Host := Host u; Path := p |}.

(** [Server]: a backend server. *)
Record Server : Type := mkServer {
  Server_URL : URL;
  healthCheckPath : string
}.

(** The part of [*http.Request] that the handlers touch: [r.URL]. *)
Record Request : Type := mkRequest {
  Request_URL : URL
}.

(** ** The outside world *)

(** What [client.Get] returns: [err != nil] (which includes the expiry of the
    client's 5 second timeout), or a response with its status code. *)
Inductive get_result : Type :=
| TransportErr
| Resp (StatusCode : Z).

#[global] Instance get_result_eq_dec : EqDecision get_result.
Proof. solve_decision. Defined.

Inductive event : Type :=
| EvGet (url : string) (res : get_result)   (* client.Get(url) and its result *)
| EvSleep (seconds : Z)                     (* time.Sleep(seconds * time.Second) *)
| EvProxy (target : URL) (r : Request)      (* NewSingleHostReverseProxy(target).ServeHTTP(w, r) *)
| EvError (body : string) (code : Z).       (* http.Error(w, body, code) *)

(** Newest event first. *)
Definition trace : Type := list event.

Definition StatusOK : Z := 200.
Definition StatusServiceUnavailable : Z := 503.

(** The events that reach the client's response writer. *)
Definition is_client_event (e : event) : bool :=
  match e with
  | EvProxy _ _ | EvError _ _ => true
  | EvGet _ _ | EvSleep _ => false
  end.

Definition client_events (t : trace) : list event :=
  List.filter is_client_event t.

(** The health-check requests of a trace, oldest first. *)
Definition gets (t : trace) : list (string * get_result) :=
  omap (fun e => match e with EvGet u res => Some (u, res) | _ => None end) (reverse t).

(** The pauses of a trace, oldest first. *)
Definition sleeps (t : trace) : list Z :=
  omap (fun e => match e with EvSleep s => Some s | _ => None end) (reverse t).

(** The backends that requests were forwarded to, oldest first. *)
Definition targets (t : trace) : list URL :=
  omap (fun e => match e with EvProxy target _ => Some target | _ => None end) (reverse t).

(** The 503 response of both handlers. *)
Definition unavailable : event :=
  EvError "No healthy backend servers available" StatusServiceUnavailable.

(** ** The health probe (same text in both programs) *)

Section Prober.

(** The [String] method of [url.URL], from the standard library. *)
Variable URL_String : URL -> string.

(** The network: the result of a GET, given the history so far. *)
Variable net : trace -> string -> get_result.

(** [err != nil || resp.StatusCode != http.StatusOK] *)
Definition attempt_failed (res : get_result) : bool :=
  match res with
  | TransportErr => true
  | Resp code => negb (code =? StatusOK)
  end.

Definition maxRetries : nat := 3.

(** [for retry := 0; retry < maxRetries; retry++ { ... }], by the number of
    iterations that remain. *)
Fixpoint retry_loop (remaining : nat) (url : string) (t : trace) : bool * trace :=
  match remaining with
  | O => (false, t)
  | S remaining' =>
      let res := net t url in
      let t1 := EvGet url res :: t in
      if attempt_failed res
      then retry_loop remaining' url (EvSleep 1 :: t1)
      else (true, t1)
  end.

Definition health_url (server : Server) : string :=
  URL_String (Server_URL server) +:+ healthCheckPath server.

Definition isServerHealthy (server : Server) (t : trace) : bool * trace :=
  if decide (healthCheckPath server = "")
  then (true, t)
  else retry_loop maxRetries (health_url server) t.

(** Every recorded GET of [new] carries the answer the network gave for the
    history before it ([t] is the history before [new]). *)
Fixpoint answered (new t : trace) : Prop :=
  match new with
  | [] => True
  | EvGet url res :: older => res = net (older ++ t) url /\ answered older t
  | _ :: older => answered older t
  end.

End Prober.

(** ** The flat program: [lb-notg/lb.go] *)

Module Flat.

(** [LoadBalancer]: the pool and its rotation index (the mutex is left out:
    a handler runs from start to end while holding it). *)
Record LoadBalancer : Type := mkLoadBalancer {
  servers : list Server;
  index : Z
}.

Section Handlers.

Variable URL_String : URL -> string.
Variable net : trace -> string -> get_result.

(** [url.Parse], from the standard library; [None] stands for [err != nil]. *)
Variable url_Parse : string -> option URL.

(** The body of the [range serverURLs] loop of [NewLoadBalancer]. *)
Fixpoint parse_servers (serverURLs : list string) (healthCheckPath : string)
    (acc : list Server) : outcome (list Server) :=
  match serverURLs with
  | [] => Ok acc
  | urlStr :: rest =>
      match url_Parse urlStr with
      | None => Panic
      | Some serverURL =>
          parse_servers rest healthCheckPath
            (acc ++ [{| Server_URL := serverURL; healthCheckPath := healthCheckPath |}])
      end
  end.

Definition NewLoadBalancer (serverURLs : list string) (healthCheckPath : string)
    : outcome LoadBalancer :=
  servers ← parse_servers serverURLs healthCheckPath [];
  Ok {| servers := servers; index := 0 |}.

(** Lines 44-45 of [ServeHTTP], one selection:
    [server := lb.servers[lb.index]; lb.index = (lb.index + 1) % len(lb.servers)]. *)
Definition select (lb : LoadBalancer) : outcome (Server * LoadBalancer) :=
  server ← at_index (servers lb) (index lb);
  next ← int_rem (int_add (index lb) 1) (len (servers lb));
  Ok (server, {| servers := servers lb; index := next |}).

(** The [for i := 0; i < len(lb.servers); i++] loop of [ServeHTTP], by the
    number of iterations that remain; the fall-through is [http.Error]. *)
Fixpoint dispatch (remaining : nat) (lb : LoadBalancer) (r : Request) (t : trace)
    : outcome (LoadBalancer * trace) :=
  match remaining with
  | O => Ok (lb, unavailable :: t)
  | S remaining' =>
      '(server, lb1) ← select lb;
      let '(healthy, t1) := isServerHealthy URL_String net server t in
      if healthy
      then
        let r' := {| Request_URL :=
                       set_Path (Request_URL r)
                         (Sprintf_slash (Host (Server_URL server)) (Path (Request_URL r))) |} in
        Ok (lb1, EvProxy (Server_URL server) r' :: t1)
      else dispatch remaining' lb1 r t1
  end.

Definition ServeHTTP (lb : LoadBalancer) (r : Request) (t : trace)
    : outcome (LoadBalancer * trace) :=
  dispatch (length (servers lb)) lb r t.

(** [k] selections in a row, as [k] requests whose first candidate is
    healthy make them. *)
Fixpoint selections (k : nat) (lb : LoadBalancer) : outcome (list Server * LoadBalancer) :=
  match k with
  | O => Ok ([], lb)
  | S k' =>
      '(server, lb1) ← select lb;
      '(rest, lb2) ← selections k' lb1;
      Ok (server :: rest, lb2)
  end.

(** The handler registered by [http.HandleFunc("/", loadBalancer.ServeHTTP)]
    run on a sequence of requests, in the order in which the handlers take
    [lb.mu]: each runs from [Lock] to the deferred [Unlock] on the state the
    previous one left. The run is followed up to the first panic. *)
Fixpoint serve_all (requests : list Request) (lb : LoadBalancer) (t : trace)
    : outcome (LoadBalancer * trace) :=
  match requests with
  | [] => Ok (lb, t)
  | r :: rest =>
      '(lb1, t1) ← ServeHTTP lb r t;
      serve_all rest lb1 t1
  end.

End Handlers.

(** The index is in range and the length of the slice fits an [int]. *)
Definition wf (lb : LoadBalancer) : Prop :=
  0 <= index lb < len (servers lb) /\ len (servers lb) <= int_max.

End Flat.

(** ** The target-group program *)

Module Groups.

(** [TargetGroup]: the servers of one URI path. *)
Record TargetGroup : Type := mkTargetGroup {
  URIPath : string;
  Servers : list Server
}.

Record LoadBalancer : Type := mkLoadBalancer {
  targetGroups : list TargetGroup
}.

Definition NewLoadBalancer (targetGroups : list TargetGroup) : LoadBalancer :=
  {| targetGroups := targetGroups |}.

(** [getNextServer]; [None] is the nil pointer. *)
Definition getNextServer (targetGroup : TargetGroup) : outcome (option Server) :=
  let serverCount := len (Servers targetGroup) in
  if serverCount =? 0 then Ok None
  else
    targetGroupIndex ← int_rem (len (Servers targetGroup)) serverCount;
    targetGroupIndex' ← int_rem (int_add targetGroupIndex 1) serverCount;
    server ← at_index (Servers targetGroup) targetGroupIndex';
    Ok (Some server).

(** The candidate a group offers to a request: what [getNextServer] returns
    for it. *)
Definition candidate (targetGroup : TargetGroup) : option Server :=
  match getNextServer targetGroup with
  | Ok server => server
  | Panic => None
  end.

(** The candidates of the groups of [groups] whose path is the path of [r],
    in configuration order. *)
Definition candidates (r : Request) (groups : list TargetGroup) : list Server :=
  omap candidate
    (filter (fun targetGroup => Path (Request_URL r) = URIPath targetGroup) groups).

Section Handlers.

Variable URL_String : URL -> string.
Variable net : trace -> string -> get_result.

(** The [range lb.targetGroups] loop of [ServeHTTP]; the fall-through is
    [http.Error]. *)
Fixpoint range_groups (groups : list TargetGroup) (r : Request) (t : trace)
    : outcome trace :=
  match groups with
  | [] => Ok (unavailable :: t)
  | targetGroup :: rest =>
      if decide (Path (Request_URL r) = URIPath targetGroup)
      then
        server ← getNextServer targetGroup;
        match server with
        | None => range_groups rest r t
        | Some server =>
            let '(healthy, t1) := isServerHealthy URL_String net server t in
            if healthy
            then
              let r' := {| Request_URL :=
                             set_Path (Request_URL r)
                               (Sprintf_slash (Host (Server_URL server)) (Path (Request_URL r))) |} in
              Ok (EvProxy (Server_URL server) r' :: t1)
            else range_groups rest r t1
        end
      else range_groups rest r t
  end.

(** The load balancer has no mutable field: the handler only extends the
    trace. *)
Definition ServeHTTP (lb : LoadBalancer) (r : Request) (t : trace) : outcome trace :=
  range_groups (targetGroups lb) r t.

(** [k] selections in a row on one group. *)
Fixpoint selections (k : nat) (targetGroup : TargetGroup) : outcome (list (option Server)) :=
  match k with
  | O => Ok []
  | S k' =>
      server ← getNextServer targetGroup;
      rest ← selections k' targetGroup;
      Ok (server :: rest)
  end.

End Handlers.

End Groups.

(** ** Spec-side definitions and concrete worlds used in the examples *)

(** The Router of the specification (section 4.1): the pool of the first
    route whose path equals the request path, in configuration order. This
    definition follows the specification's words, not the code. *)
Definition spec_resolve (routes : list Groups.TargetGroup) (requestPath : string)
    : option Groups.TargetGroup :=
  List.find (fun route => bool_decide (requestPath = Groups.URIPath route)) routes.

(** The dispatch of the specification (section 4.4) in the target-group
    shape: resolve the pool with the Router, then serve from that pool only.
    The second step is the code's handler run on the resolved route alone. *)
Definition spec_dispatch (URL_String : URL -> string) (net : trace -> string -> get_result)
    (lb : Groups.LoadBalancer) (r : Request) (t : trace) : outcome trace :=
  match spec_resolve (Groups.targetGroups lb) (Path (Request_URL r)) with
  | Some pool => Groups.ServeHTTP URL_String net {| Groups.targetGroups := [pool] |} r t
  | None => Ok (unavailable :: t)
  end.

(** The sentence of the specification on giving up, for the target-group
    program: a 503 is answered only after every backend of the resolved pool
    was probed unhealthy while the request was handled. *)
Definition gives_up_after_all_probed (URL_String : URL -> string)
    (net : trace -> string -> get_result)
    (lb : Groups.LoadBalancer) (r : Request) (t : trace) : Prop :=
  forall pool t',
    spec_resolve (Groups.targetGroups lb) (Path (Request_URL r)) = Some pool ->
    Groups.ServeHTTP URL_String net lb r t = Ok (unavailable :: t') ->
    forall server, server ∈ Groups.Servers pool ->
      exists t0 t1, t `suffix_of` t0 /\ t1 `suffix_of` t' /\
                    isServerHealthy URL_String net server t0 = (false, t1).

(** The sentence of the specification on the serving pool: the backend a
    request is forwarded to belongs to the pool of the first route whose path
    equals the request path. *)
Definition forwarded_from_first_match (URL_String : URL -> string)
    (net : trace -> string -> get_result)
    (lb : Groups.LoadBalancer) (r : Request) (t : trace) : Prop :=
  forall target r' t',
    Groups.ServeHTTP URL_String net lb r t = Ok (EvProxy target r' :: t') ->
    exists pool server,
      spec_resolve (Groups.targetGroups lb) (Path (Request_URL r)) = Some pool /\
      server ∈ Groups.Servers pool /\
      target = Server_URL server.

(** A rendering of simple URLs, for the examples. *)
Definition render (u : URL) : string := Scheme u +:+ "://" +:+ Host u +:+ Path u.

Definition localhost (port : string) : URL :=
  {| Scheme := "http"; Host := "localhost:" +:+ port; Path := "" |}.

Definition backend (port : string) : Server :=
  {| Server_URL := localhost port; healthCheckPath := "/health" |}.

(** The servers and groups of the two [main] functions. *)
Definition s8081 : Server := backend "8081".
Definition s8082 : Server := backend "8082".
Definition s8083 : Server := backend "8083".
Definition s8084 : Server := backend "8084".

Definition app1 : Groups.TargetGroup :=
  {| Groups.URIPath := "/app1"; Groups.Servers := [s8081; s8082] |}.
Definition app2 : Groups.TargetGroup :=
  {| Groups.URIPath := "/app2"; Groups.Servers := [s8083; s8084] |}.

Definition main_groups : Groups.LoadBalancer := Groups.NewLoadBalancer [app1; app2].

Definition main_flat : Flat.LoadBalancer :=
  {| Flat.servers := [s8081; s8082]; Flat.index := 0 |}.

(** Two routes with the same path. *)
Definition twice_app1 : Groups.LoadBalancer :=
  Groups.NewLoadBalancer
    [ {| Groups.URIPath := "/app1"; Groups.Servers := [s8081] |};
      {| Groups.URIPath := "/app1"; Groups.Servers := [s8083] |} ].

(** A group without servers. *)
Definition empty_app : Groups.LoadBalancer :=
  Groups.NewLoadBalancer [ {| Groups.URIPath := "/app1"; Groups.Servers := [] |} ].

(** A backend without a health-check path. *)
Definition unchecked : Server :=
  {| Server_URL := localhost "9090"; healthCheckPath := "" |}.

(** A route without servers followed by a route for the same path whose
    only server has no health-check path. *)
Definition empty_then_unchecked : Groups.LoadBalancer :=
  Groups.NewLoadBalancer
    [ {| Groups.URIPath := "/app1"; Groups.Servers := [] |};
      {| Groups.URIPath := "/app1"; Groups.Servers := [unchecked] |} ].

(** A flat balancer without servers, and pools with an unchecked backend. *)
Definition empty_flat : Flat.LoadBalancer :=
  {| Flat.servers := []; Flat.index := 0 |}.



Definition request (path : string) : Request :=
  {| Request_URL := {| Scheme := ""; Host := ""; Path := path |} |}.

(** Networks: every backend answers 200; no backend answers; only the
    listed health URLs answer 200; every backend answers 500. *)
Definition net_up : trace -> string -> get_result := fun _ _ => Resp 200.
Definition net_down : trace -> string -> get_result := fun _ _ => TransportErr.
Definition net_only (up : list string) : trace -> string -> get_result :=
  fun _ url => if bool_decide (url ∈ up) then Resp 200 else TransportErr.
Definition net_500 : trace -> string -> get_result := fun _ _ => Resp 500.

(** Only port 8081, respectively only port 8083, is up. *)
Definition net_8081 : trace -> string -> get_result :=
  net_only ["http://localhost:8081/health"].
Definition net_8083 : trace -> string -> get_result :=
  net_only ["http://localhost:8083/health"].

(** Every backend is unreachable for the first six health checks and
    answers 200 from then on. *)
Definition net_late : trace -> string -> get_result :=
  fun t _ => if (6 <=? length (gets t))%nat then Resp 200 else TransportErr.

(** A backend that answers 200 from its third health check on. *)
Definition net_slow : trace -> string -> get_result :=
  fun t _ => if (2 <=? length (gets t))%nat then Resp 200 else Resp 503.

(** ** Runs of the probe over a list of candidates *)

Section Runs.

Variable URL_String : URL -> string.
Variable net : trace -> string -> get_result.

(** [probed_unhealthy cands t t']: starting from history [t], each candidate
    of [cands] was probed in turn and found unhealthy, which left history
    [t']. *)
Inductive probed_unhealthy : list Server -> trace -> trace -> Prop :=
| probed_nil (t : trace) : probed_unhealthy [] t t
| probed_cons (server : Server) (rest : list Server) (t t1 t2 : trace) :
    isServerHealthy URL_String net server t = (false, t1) ->
    probed_unhealthy rest t1 t2 ->
    probed_unhealthy (server :: rest) t t2.

(** The request as the reverse proxy receives it when [server] is chosen. *)
Definition forwarded (server : Server) (r : Request) : event :=
  EvProxy (Server_URL server)
    {| Request_URL :=
         set_Path (Request_URL r)
           (Sprintf_slash (Host (Server_URL server)) (Path (Request_URL r))) |}.

End Runs.

(** ** The response on the wire *)

(** What the client receives: status line, headers, body. *)
Record Response : Type := mkResponse {
  Status : Z;
  Header : list (string * string);
  Body : string
}.

Definition newline : string := String (Ascii.ascii_of_nat 10) "".

(** [http.Error(w, error, code)] of the standard library, on a response
    writer whose headers the handler has left alone, as both handlers do:
    it sets the content type and the no-sniff header, writes the status,
    and prints the text with [fmt.Fprintln], that is followed by a
    newline. *)
Definition http_Error (error : string) (code : Z) : Response :=
  {| Status := code;
     Header := [("Content-Type", "text/plain; charset=utf-8");
                ("X-Content-Type-Options", "nosniff")];
     Body := error +:+ newline |}.

(** The response that an event of the handler itself puts on the wire; a
    forwarded request is answered by the reverse proxy. *)
Definition written (e : event) : option Response :=
  match e with
  | EvError body code => Some (http_Error body code)
  | _ => None
  end.

(** The response of the specification's failure sentence: status 503, the
    text as the whole body, no header. *)
Definition bare_503 : Response :=
  {| Status := 503; Header := []; Body := "No healthy backend servers available" |}.

(** The sentence of the specification on the failure response, for a request
    whose path no route has: the client receives the bare 503. *)
Definition unmatched_gets_bare_503 (URL_String : URL -> string)
    (net : trace -> string -> get_result)
    (lb : Groups.LoadBalancer) (r : Request) (t : trace) : Prop :=
  spec_resolve (Groups.targetGroups lb) (Path (Request_URL r)) = None ->
  exists e t1,
    Groups.ServeHTTP URL_String net lb r t = Ok (e :: t1) /\
    written e = Some bare_503.

(** The sentence on empty backend lists, for the target-group program: a
    request whose resolved pool has no server is answered with the 503. *)
Definition empty_pool_gets_503 (URL_String : URL -> string)
    (net : trace -> string -> get_result)
    (lb : Groups.LoadBalancer) (r : Request) (t : trace) : Prop :=
  forall pool,
    spec_resolve (Groups.targetGroups lb) (Path (Request_URL r)) = Some pool ->
    Groups.Servers pool = [] ->
    exists t1, Groups.ServeHTTP URL_String net lb r t = Ok (unavailable :: t1).

(** The events of one health-check request answered [a], oldest first: the
    request, and the pause of one second when it failed. *)
Definition attempt_events (url : string) (a : get_result) : list event :=
  EvGet url a :: (if attempt_failed a then [EvSleep 1] else []).

(** The events of a sequence of health-check requests, newest first. *)
Definition probe_events (url : string) (attempts : list get_result) : trace :=
  reverse (attempts ≫= attempt_events url).

(** ** The health probe *)

Section ProberFacts.

Variable URL_String : URL -> string.
Variable net : trace -> string -> get_result.

Lemma gets_app (a b : trace) : gets (a ++ b) = gets b ++ gets a.
Proof. unfold gets. by rewrite reverse_app, omap_app. Qed.

Lemma client_events_app (a b : trace) :
  client_events (a ++ b) = client_events a ++ client_events b.
Proof. unfold client_events. apply List.filter_app. Qed.

Lemma answered_app (a b t : trace) :
  answered net (a ++ b) t <-> answered net a (b ++ t) /\ answered net b t.
Proof.
  induction a as [|e a IH]; simpl.
  - tauto.
  - destruct e; rewrite <- ?(assoc_L (++)); tauto.
Qed.

(** What one run of the retry loop does. *)
Lemma retry_loop_spec (n : nat) (url : string) (t : trace) :
  exists (new : trace) (attempts : list get_result),
    (retry_loop net n url t).2 = new ++ t /\
    client_events new = [] /\
    answered net new t /\
    gets new = (fun a => (url, a)) <$> attempts /\
    sleeps new = replicate (length (List.filter attempt_failed attempts)) 1 /\
    if (retry_loop net n url t).1
    then exists failed ok, attempts = failed ++ [ok] /\
           Forall (fun a => attempt_failed a = true) failed /\
           attempt_failed ok = false /\ (length attempts <= n)%nat
    else length attempts = n /\ Forall (fun a => attempt_failed a = true) attempts.
Proof.
  revert t. induction n as [|n IH]; intros t; simpl.
  - exists [], []. by repeat split.
  - destruct (attempt_failed (net t url)) eqn:Hres.
    + destruct (IH (EvSleep 1 :: EvGet url (net t url) :: t))
        as (new & attempts & Ht & Hc & Hans & Hg & Hs & Hb).
      exists (new ++ [EvSleep 1; EvGet url (net t url)]), (net t url :: attempts).
      split; [by rewrite Ht, <- (assoc_L (++))|].
      split; [by rewrite client_events_app, Hc|].
      split; [apply answered_app; by split|].
      split; [by rewrite gets_app, Hg|].
      split.
      { unfold sleeps in *. rewrite reverse_app, omap_app, Hs. simpl.
        by rewrite Hres. }
      destruct (retry_loop net n url _).1.
      * destruct Hb as (failed & ok & -> & Hf & Hok & Hlen).
        exists (net t url :: failed), ok. repeat split; auto.
        simpl. lia.
      * destruct Hb as [<- Hf]. split; [done|]. by constructor.
    + exists [EvGet url (net t url)], [net t url]. repeat split; simpl; auto.
      * by rewrite Hres.
      * exists [], (net t url). repeat split; auto. simpl. lia.
Qed.

Lemma attempt_failed_false (res : get_result) :
  attempt_failed res = false <-> res = Resp StatusOK.
Proof.
  destruct res as [|code]; simpl; [split; discriminate|].
  rewrite negb_false_iff, Z.eqb_eq. split; [by intros ->|by intros [= ->]].
Qed.

Lemma attempt_failed_true (res : get_result) :
  attempt_failed res = true <-> res <> Resp StatusOK.
Proof.
  rewrite <- attempt_failed_false. destruct (attempt_failed res); split; congruence.
Qed.

(** The probe only talks to the backend: nothing reaches the client, and the
    history is only extended. *)
Lemma isServerHealthy_extends (server : Server) (t : trace) :
  exists new, (isServerHealthy URL_String net server t).2 = new ++ t /\
              client_events new = [].
Proof.
  unfold isServerHealthy. destruct (decide _).
  - by exists [].
  - destruct (retry_loop_spec maxRetries (health_url URL_String server) t)
      as (new & ? & ? & ? & _). by exists new.
Qed.

Lemma isServerHealthy_client_events (server : Server) (t : trace) :
  client_events (isServerHealthy URL_String net server t).2 = client_events t.
Proof.
  destruct (isServerHealthy_extends server t) as (new & -> & Hc).
  by rewrite client_events_app, Hc.
Qed.

(** C3: for a backend with a non-empty [healthCheckPath], the probe makes
    between one and three GET requests, all to the backend's address followed
    by the health-check path; it returns true exactly when the last request
    made was answered with status 200 and every request before it failed
    (so it stops at the first success), and it returns false exactly when
    three requests were made and each failed, by a transport error or a
    status other than 200. *)
Theorem isServerHealthy_retries (server : Server) (t : trace) :
  healthCheckPath server <> "" ->
  exists (new : trace) (attempts : list get_result),
    (isServerHealthy URL_String net server t).2 = new ++ t /\
    answered net new t /\
    gets new =
      (fun a => (URL_String (Server_URL server) +:+ healthCheckPath server, a)) <$> attempts /\
    (1 <= length attempts <= 3)%nat /\
    ((isServerHealthy URL_String net server t).1 = true <->
       exists failed, attempts = failed ++ [Resp 200] /\
                      Forall (fun a => a <> Resp 200) failed) /\
    ((isServerHealthy URL_String net server t).1 = false <->
       length attempts = 3%nat /\ Forall (fun a => a <> Resp 200) attempts).
Proof.
  intros Hpath. unfold isServerHealthy. destruct (decide _) as [|_]; [done|].
  destruct (retry_loop_spec maxRetries (health_url URL_String server) t)
    as (new & attempts & Ht & _ & Hans & Hg & _ & Hb).
  exists new, attempts. do 3 (split; [done|]).
  destruct (retry_loop net maxRetries _ t).1.
  - destruct Hb as (failed & ok & -> & Hf & Hok & Hlen).
    apply attempt_failed_false in Hok as ->.
    assert (Forall (fun a => a <> Resp 200) failed) as Hf'.
    { eapply Forall_impl; [exact Hf|]. intros a. by rewrite attempt_failed_true. }
    split; [rewrite length_app in *; simpl in *; unfold maxRetries in *; lia|].
    split; [split; [eauto|done]|].
    split; [done|]. intros [_ Hall].
    apply Forall_app in Hall as [_ Hall]. by inversion Hall.
  - destruct Hb as [Hlen Hf].
    assert (Forall (fun a => a <> Resp 200) attempts) as Hf'.
    { eapply Forall_impl; [exact Hf|]. intros a. by rewrite attempt_failed_true. }
    split; [rewrite Hlen; unfold maxRetries; lia|].
    split; [|done].
    split; [done|]. intros (failed & -> & _).
    apply Forall_app in Hf' as [_ Hall]. by inversion Hall.
Qed.

(** A backend without a health-check path is healthy by definition: no
    request is made. *)
Lemma isServerHealthy_no_path (server : Server) (t : trace) :
  healthCheckPath server = "" ->
  isServerHealthy URL_String net server t = (true, t).
Proof. intros H. unfold isServerHealthy. by destruct (decide _). Qed.

End ProberFacts.

Lemma isServerHealthy_retries_witness :
  exists (new : trace) (attempts : list get_result),
    (isServerHealthy render net_slow s8081 []).2 = new ++ [] /\
    answered net_slow new [] /\
    gets new =
      (fun a => (render (Server_URL s8081) +:+ healthCheckPath s8081, a)) <$> attempts /\
    (1 <= length attempts <= 3)%nat /\
    ((isServerHealthy render net_slow s8081 []).1 = true <->
       exists failed, attempts = failed ++ [Resp 200] /\
                      Forall (fun a => a <> Resp 200) failed) /\
    ((isServerHealthy render net_slow s8081 []).1 = false <->
       length attempts = 3%nat /\ Forall (fun a => a <> Resp 200) attempts).
Proof. apply (isServerHealthy_retries render net_slow s8081 []). discriminate. Defined.

(** The probe of a backend that answers from its third health check on:
    two failures, each followed by a pause of one second, then the success. *)
Example isServerHealthy_third_time :
  isServerHealthy render net_slow s8081 [] =
    (true, [EvGet "http://localhost:8081/health" (Resp 200);
            EvSleep 1; EvGet "http://localhost:8081/health" (Resp 503);
            EvSleep 1; EvGet "http://localhost:8081/health" (Resp 503)]).
Proof. reflexivity. Qed.

(** The probe of an unreachable backend: three requests, three pauses. *)
Example isServerHealthy_unreachable :
  isServerHealthy render net_down s8081 [] =
    (false, [EvSleep 1; EvGet "http://localhost:8081/health" TransportErr;
             EvSleep 1; EvGet "http://localhost:8081/health" TransportErr;
             EvSleep 1; EvGet "http://localhost:8081/health" TransportErr]).
Proof. reflexivity. Qed.

(** ** Go integers *)

Lemma wrap_small (z : Z) : int_min <= z <= int_max -> wrap z = z.
Proof.
  unfold wrap, int_min, int_max. intros H.
  rewrite Z.mod_small; lia.
Qed.

Lemma at_index_lookup {A : Type} (s : list A) (i : Z) (x : A) :
  at_index s i = Ok x <-> 0 <= i /\ s !! Z.to_nat i = Some x.
Proof.
  unfold at_index. destruct (Z.ltb_spec i 0).
  - split; [done|lia].
  - destruct (s !! Z.to_nat i) as [y|].
    + split; [by intros [= ->]|by intros [_ [= ->]]].
    + split; [done|by intros [_ ?]].
Qed.

(** ** The flat program *)

Section FlatFacts.

Variable URL_String : URL -> string.
Variable net : trace -> string -> get_result.

Local Abbreviation dispatch := (Flat.dispatch URL_String net).
Local Abbreviation ServeHTTP := (Flat.ServeHTTP URL_String net).
Local Abbreviation healthy := (isServerHealthy URL_String net).
Local Abbreviation unhealthy_run := (probed_unhealthy URL_String net).

(** One selection on a well-formed balancer: the server under the index,
    and the index moved by one modulo the number of servers. *)
Lemma select_wf (lb : Flat.LoadBalancer) :
  Flat.wf lb ->
  exists server,
    Flat.servers lb !! Z.to_nat (Flat.index lb) = Some server /\
    Flat.select lb =
      Ok (server, {| Flat.servers := Flat.servers lb;
                     Flat.index := (Flat.index lb + 1) mod len (Flat.servers lb) |}) /\
    Flat.wf {| Flat.servers := Flat.servers lb;
               Flat.index := (Flat.index lb + 1) mod len (Flat.servers lb) |}.
Proof.
  intros [Hidx Hlen]. unfold len in *.
  destruct (lookup_lt_is_Some_2 (Flat.servers lb) (Z.to_nat (Flat.index lb)))
    as [server Hs]; [lia|].
  exists server. split; [done|]. split.
  - unfold Flat.select.
    assert (at_index (Flat.servers lb) (Flat.index lb) = Ok server) as ->
      by (apply at_index_lookup; split; [lia|done]).
    simpl. unfold int_add, int_rem.
    rewrite wrap_small by (unfold int_min, int_max in *; lia).
    destruct (Z.eqb_spec (len (Flat.servers lb)) 0) as [H0|_];
      [unfold len in H0; lia|].
    simpl. rewrite Z.rem_mod_nonneg by (unfold len; lia). done.
  - split; simpl; [|done]. unfold len. apply Z.mod_pos_bound. lia.
Qed.

Lemma select_servers (lb lb' : Flat.LoadBalancer) (server : Server) :
  Flat.select lb = Ok (server, lb') ->
  Flat.servers lb' = Flat.servers lb /\ server ∈ Flat.servers lb.
Proof.
  unfold Flat.select. destruct (at_index _ _) as [s|] eqn:Hs; [|done]. simpl.
  destruct (int_rem _ _); [|done]. simpl. intros [= <- <-]. split; [done|].
  apply at_index_lookup in Hs as [_ Hs]. by eapply list_elem_of_lookup_2.
Qed.

(** [k] selections in a row: the [j]-th one returns the server at index
    [(index + j) mod n], and the index ends at [(index + k) mod n]. *)
Lemma selections_wf (k : nat) (lb : Flat.LoadBalancer) :
  Flat.wf lb ->
  exists picked,
    Flat.selections k lb =
      Ok (picked, {| Flat.servers := Flat.servers lb;
                     Flat.index := (Flat.index lb + Z.of_nat k) mod len (Flat.servers lb) |}) /\
    length picked = k /\
    forall j : nat, (j < k)%nat ->
      picked !! j =
        Flat.servers lb !! Z.to_nat ((Flat.index lb + Z.of_nat j) mod len (Flat.servers lb)).
Proof.
  revert lb. induction k as [|k IH]; intros lb Hwf.
  - exists []. simpl. split; [|split; [done|lia]].
    destruct Hwf as [Hidx _]. rewrite Z.add_0_r, Z.mod_small by done.
    by destruct lb.
  - destruct (select_wf lb Hwf) as (server & Hs & Hsel & Hwf1).
    destruct (IH _ Hwf1) as (picked & Hpicked & Hlen & Hlook). simpl in *.
    exists (server :: picked). split; [|split].
    + rewrite Hsel. simpl. rewrite Hpicked. simpl. do 3 f_equal.
      rewrite Zplus_mod_idemp_l. f_equal. lia.
    + simpl. by rewrite Hlen.
    + intros [|j] Hj; simpl.
      * destruct Hwf as [Hidx _]. by rewrite Z.add_0_r, Z.mod_small.
      * rewrite Hlook by lia. rewrite Zplus_mod_idemp_l. do 3 f_equal. lia.
Qed.

(** A full round of selections returns the pool rotated to start at the
    index, and brings the index back where it was. *)
Lemma selections_round (lb : Flat.LoadBalancer) :
  Flat.wf lb ->
  Flat.selections (length (Flat.servers lb)) lb =
    Ok (rotate (Z.to_nat (Flat.index lb)) (Flat.servers lb), lb).
Proof.
  intros Hwf. destruct (selections_wf (length (Flat.servers lb)) lb Hwf)
    as (picked & -> & Hlen & Hlook).
  destruct Hwf as [Hidx _]. unfold len in *. f_equal. f_equal.
  - apply list_eq_same_length with (length (Flat.servers lb));
      [by rewrite length_rotate|done|].
    intros j x y Hj Hx Hy. rewrite Hlook in Hx by done.
    rewrite lookup_rotate_r in Hy by done. unfold rotate_nat_add in Hy.
    rewrite Z2Nat.id in Hy by lia. congruence.
  - rewrite <- (Z.mul_1_l (Z.of_nat (length _))) at 1.
    rewrite Z.mod_add by lia. rewrite Z.mod_small by done. by destruct lb.
Qed.

Lemma wf_shift (lb : Flat.LoadBalancer) (k : Z) :
  Flat.wf lb ->
  Flat.wf {| Flat.servers := Flat.servers lb;
             Flat.index := (Flat.index lb + k) mod len (Flat.servers lb) |}.
Proof.
  intros [Hidx Hlen]. split; simpl; [|done]. apply Z.mod_pos_bound. lia.
Qed.

Lemma rotate_lookup_index (lb : Flat.LoadBalancer) (j : nat) :
  Flat.wf lb -> (j < length (Flat.servers lb))%nat ->
  rotate (Z.to_nat (Flat.index lb)) (Flat.servers lb) !! j =
    Flat.servers lb !! Z.to_nat ((Flat.index lb + Z.of_nat j) mod len (Flat.servers lb)).
Proof.
  intros [Hidx _] Hj. rewrite lookup_rotate_r by done.
  unfold rotate_nat_add, len. by rewrite Z2Nat.id by lia.
Qed.

(** Up to a full round, the selections are a prefix of the pool rotated to
    start at the index: no server is selected twice. *)
Lemma selections_prefix (j : nat) (lb : Flat.LoadBalancer) :
  Flat.wf lb -> (j <= length (Flat.servers lb))%nat ->
  Flat.selections j lb =
    Ok (take j (rotate (Z.to_nat (Flat.index lb)) (Flat.servers lb)),
        {| Flat.servers := Flat.servers lb;
           Flat.index := (Flat.index lb + Z.of_nat j) mod len (Flat.servers lb) |}).
Proof.
  intros Hwf Hj. destruct (selections_wf j lb Hwf) as (picked & -> & Hlen & Hlook).
  do 2 f_equal.
  apply list_eq_same_length with j;
    [rewrite length_take, length_rotate; lia|done|].
  intros i x y Hi Hx Hy. rewrite Hlook in Hx by done.
  rewrite lookup_take_lt in Hy by done.
  rewrite rotate_lookup_index in Hy by (done || lia). congruence.
Qed.

Lemma selections_add (j k : nat) (lb : Flat.LoadBalancer) :
  Flat.selections (j + k) lb =
    '(first, lb1) ← Flat.selections j lb;
    '(second, lb2) ← Flat.selections k lb1;
    Ok (first ++ second, lb2).
Proof.
  revert lb. induction j as [|j IH]; intros lb; simpl.
  - by destruct (Flat.selections k lb) as [[second lb2]|].
  - destruct (Flat.select lb) as [[server lb1]|]; [|done]. simpl.
    rewrite IH. destruct (Flat.selections j lb1) as [[first lb2]|]; [|done]. simpl.
    by destruct (Flat.selections k lb2) as [[second lb3]|].
Qed.

(** Fairness of the flat rotation: [n] selections in a row visit each of
    the [n] servers exactly once, and the next selection repeats the first. *)
Lemma selections_fair (lb : Flat.LoadBalancer) :
  Flat.wf lb ->
  exists (round : list Server) (again : Server) (lb' : Flat.LoadBalancer),
    Flat.selections (length (Flat.servers lb)) lb = Ok (round, lb) /\
    round ≡ₚ Flat.servers lb /\
    Flat.selections (length (Flat.servers lb) + 1) lb = Ok (round ++ [again], lb') /\
    head round = Some again.
Proof.
  intros Hwf. pose proof (selections_round lb Hwf) as Hround.
  destruct (select_wf lb Hwf) as (server & Hs & Hsel & _).
  eexists _, server, _. split; [exact Hround|]. split; [|split].
  - unfold rotate. rewrite Permutation_app_comm. by rewrite take_drop.
  - rewrite selections_add, Hround. simpl. rewrite Hsel. simpl. reflexivity.
  - rewrite head_lookup. rewrite rotate_lookup_index.
    + destruct Hwf as [Hidx _]. by rewrite Z.add_0_r, Z.mod_small.
    + done.
    + destruct Hwf as [Hidx _]. unfold len in Hidx. lia.
Qed.

(** The handler never stops on a panic when the index is in range. *)
Lemma dispatch_total (k : nat) (lb : Flat.LoadBalancer) (r : Request) (t : trace) :
  Flat.wf lb ->
  exists lb' t', dispatch k lb r t = Ok (lb', t') /\ Flat.wf lb'.
Proof.
  revert lb t. induction k as [|k IH]; intros lb t Hwf; simpl.
  - eauto.
  - destruct (select_wf lb Hwf) as (server & _ & -> & Hwf1). simpl.
    destruct (healthy server t) as [[] t1]; eauto.
Qed.

(** What a run of the dispatch loop did, read off its result: it made [j]
    selections whose candidates were all probed unhealthy, and then either
    ran out of iterations and answered 503, or selected one more candidate,
    found it healthy and forwarded the request to it. *)
Lemma dispatch_run (k : nat) (lb lb' : Flat.LoadBalancer) (r : Request) (t t' : trace) :
  dispatch k lb r t = Ok (lb', t') ->
  exists (j : nat) (cands : list Server) (lbj : Flat.LoadBalancer) (t1 : trace),
    Flat.selections j lb = Ok (cands, lbj) /\
    unhealthy_run cands t t1 /\
    ((j = k /\ lb' = lbj /\ t' = unavailable :: t1) \/
     ((j < k)%nat /\
      exists server t2,
        Flat.select lbj = Ok (server, lb') /\
        healthy server t1 = (true, t2) /\
        t' = forwarded server r :: t2)).
Proof.
  revert lb t. induction k as [|k IH]; intros lb t; simpl.
  - intros [= <- <-]. exists 0%nat, [], lb, t.
    split; [done|]. split; [constructor|]. by left.
  - destruct (Flat.select lb) as [[server lb1]|] eqn:Hsel; [|done]. simpl.
    destruct (healthy server t) as [[] t1] eqn:Hh.
    + intros [= <- <-]. exists 0%nat, [], lb, t.
      split; [done|]. split; [constructor|]. right. split; [lia|].
      by exists server, t1.
    + intros Hrun. destruct (IH _ _ Hrun) as (j & cands & lbj & t2 & Hsels & Hp & Hend).
      exists (S j), (server :: cands), lbj, t2. split; [|split].
      * simpl. rewrite Hsel. simpl. by rewrite Hsels.
      * by econstructor.
      * destruct Hend as [(-> & -> & ->)|(Hj & Hfwd)]; [by left|].
        right. split; [lia|done].
Qed.

(** The client sees one event per request. *)
Lemma unhealthy_run_client_events (cands : list Server) (t t' : trace) :
  unhealthy_run cands t t' -> client_events t' = client_events t.
Proof.
  induction 1 as [|server rest t t1 t2 Hh _ IH]; [done|].
  rewrite IH. pose proof (isServerHealthy_client_events URL_String net server t) as Hc.
  by rewrite Hh in Hc.
Qed.

End FlatFacts.

(** ** The target-group program *)

Section GroupsFacts.

Variable URL_String : URL -> string.
Variable net : trace -> string -> get_result.

Local Abbreviation range_groups := (Groups.range_groups URL_String net).
Local Abbreviation ServeHTTP := (Groups.ServeHTTP URL_String net).
Local Abbreviation healthy := (isServerHealthy URL_String net).
Local Abbreviation unhealthy_run := (probed_unhealthy URL_String net).

(** [getNextServer] computes its index from the length of the group alone:
    the only server of a group of one, the second server of any larger
    group, and nil for a group without servers. It never panics. *)
Lemma getNextServer_spec (targetGroup : Groups.TargetGroup) :
  Groups.getNextServer targetGroup =
    Ok (Groups.Servers targetGroup !!
          (if decide (length (Groups.Servers targetGroup) = 1%nat) then 0 else 1)%nat).
Proof.
  unfold Groups.getNextServer.
  destruct (Groups.Servers targetGroup) as [|s0 [|s1 rest]]; [reflexivity..|].
  set (servers := s0 :: s1 :: rest).
  assert (2 <= len servers) as Hlen by (unfold len; simpl; lia).
  destruct (Z.eqb_spec (len servers) 0) as [H0|Hn0]; [lia|].
  unfold int_rem. rewrite Z.rem_same by done.
  apply Z.eqb_neq in Hn0 as ->. cbn [mbind outcome_bind obind].
  change (int_add 0 1) with 1. rewrite Z.rem_small by lia.
  reflexivity.
Qed.

Lemma candidate_spec (targetGroup : Groups.TargetGroup) :
  Groups.getNextServer targetGroup = Ok (Groups.candidate targetGroup).
Proof.
  unfold Groups.candidate. by rewrite getNextServer_spec.
Qed.

Lemma candidate_elem_of (targetGroup : Groups.TargetGroup) (server : Server) :
  Groups.candidate targetGroup = Some server ->
  server ∈ Groups.Servers targetGroup.
Proof.
  unfold Groups.candidate. rewrite getNextServer_spec.
  intros H. by eapply list_elem_of_lookup_2.
Qed.

Lemma candidates_cons (r : Request) (tg : Groups.TargetGroup) (rest : list Groups.TargetGroup) :
  Groups.candidates r (tg :: rest) =
    (if decide (Path (Request_URL r) = Groups.URIPath tg)
     then option_list (Groups.candidate tg) else []) ++ Groups.candidates r rest.
Proof.
  unfold Groups.candidates. rewrite filter_cons. destruct (decide _); [|done].
  simpl. by destruct (Groups.candidate tg).
Qed.

(** The handler never stops on a panic. *)
Lemma range_groups_total (groups : list Groups.TargetGroup) (r : Request) (t : trace) :
  exists t', range_groups groups r t = Ok t'.
Proof.
  revert t. induction groups as [|tg rest IH]; intros t; simpl.
  - eauto.
  - destruct (decide _); [|done]. rewrite candidate_spec. simpl.
    destruct (Groups.candidate tg) as [server|]; [|done].
    destruct (healthy server t) as [[] t1]; eauto.
Qed.

(** What a run of the handler did, read off its result: the candidates of
    the matching groups it went past were all probed unhealthy, and then
    either no group was left and it answered 503, or the next matching
    group offered a candidate that was found healthy, and the request was
    forwarded to it. *)
Lemma range_groups_run (groups : list Groups.TargetGroup) (r : Request) (t t' : trace) :
  range_groups groups r t = Ok t' ->
  exists (past : list Groups.TargetGroup) (t1 : trace),
    unhealthy_run (Groups.candidates r past) t t1 /\
    ((past = groups /\ t' = unavailable :: t1) \/
     (exists pool rest server t2,
        groups = past ++ pool :: rest /\
        Path (Request_URL r) = Groups.URIPath pool /\
        Groups.getNextServer pool = Ok (Some server) /\
        healthy server t1 = (true, t2) /\
        t' = forwarded server r :: t2)).
Proof.
  revert t. induction groups as [|tg rest IH]; intros t; simpl.
  - intros [= <-]. exists [], t. split; [constructor|]. by left.
  - destruct (decide _) as [Hpath|Hpath].
    + rewrite candidate_spec. simpl.
      destruct (Groups.candidate tg) as [server|] eqn:Hcand.
      * destruct (healthy server t) as [[] t1] eqn:Hh.
        -- intros [= <-]. exists [], t. split; [constructor|]. right.
           exists tg, rest, server, t1. rewrite candidate_spec, Hcand. done.
        -- intros Hrun. destruct (IH _ Hrun) as (past & t2 & Hp & Hend).
           exists (tg :: past), t2. split.
           ++ rewrite candidates_cons. destruct (decide _); [|done].
              rewrite Hcand. simpl. by econstructor.
           ++ destruct Hend as [[-> ->]|(pool & rest' & s & t3 & -> & ?)]; [by left|].
              right. by exists pool, rest', s, t3.
      * intros Hrun. destruct (IH _ Hrun) as (past & t2 & Hp & Hend).
        exists (tg :: past), t2. split.
        -- rewrite candidates_cons. destruct (decide _); [|done]. by rewrite Hcand.
        -- destruct Hend as [[-> ->]|(pool & rest' & s & t3 & -> & ?)]; [by left|].
           right. by exists pool, rest', s, t3.
    + intros Hrun. destruct (IH _ Hrun) as (past & t2 & Hp & Hend).
      exists (tg :: past), t2. split.
      * rewrite candidates_cons. by destruct (decide _).
      * destruct Hend as [[-> ->]|(pool & rest' & s & t3 & -> & ?)]; [by left|].
        right. by exists pool, rest', s, t3.
Qed.

(** When no group has the path of the request, nothing is probed. *)
Lemma range_groups_no_match (groups : list Groups.TargetGroup) (r : Request) (t : trace) :
  (forall tg, tg ∈ groups -> Groups.URIPath tg <> Path (Request_URL r)) ->
  range_groups groups r t = Ok (unavailable :: t).
Proof.
  induction groups as [|tg rest IH]; intros Hno; simpl; [done|].
  destruct (decide _) as [Hpath|_].
  - exfalso. eapply (Hno tg); [left|done].
  - apply IH. intros tg' Hin. apply Hno. by right.
Qed.

End GroupsFacts.

(** ** Construction of the flat balancer *)

Section FlatConstruction.

Variable url_Parse : string -> option URL.

Lemma parse_servers_length (serverURLs : list string) (healthCheckPath : string)
    (acc servers : list Server) :
  Flat.parse_servers url_Parse serverURLs healthCheckPath acc = Ok servers ->
  length servers = (length acc + length serverURLs)%nat.
Proof.
  revert acc. induction serverURLs as [|urlStr rest IH]; intros acc; simpl.
  - intros [= <-]. lia.
  - destruct (url_Parse urlStr) as [serverURL|]; [|done].
    intros Hrest. apply IH in Hrest. rewrite length_app in Hrest. simpl in Hrest. lia.
Qed.

(** A balancer built from a non-empty list of addresses starts well-formed,
    with its index on the first server. *)
Lemma NewLoadBalancer_wf (serverURLs : list string) (healthCheckPath : string)
    (lb : Flat.LoadBalancer) :
  Flat.NewLoadBalancer url_Parse serverURLs healthCheckPath = Ok lb ->
  Flat.index lb = 0 /\
  length (Flat.servers lb) = length serverURLs /\
  (serverURLs <> [] -> len serverURLs <= int_max -> Flat.wf lb).
Proof.
  unfold Flat.NewLoadBalancer.
  destruct (Flat.parse_servers _ _ _ _) as [servers|] eqn:Hparse; [|done].
  simpl. intros [= <-]. apply parse_servers_length in Hparse. simpl in *.
  split; [done|]. split; [done|]. intros Hne Hfits. unfold Flat.wf, len in *. simpl.
  rewrite Hparse. destruct serverURLs; [done|]. simpl in *. lia.
Qed.

End FlatConstruction.

(** ** The dispatcher *)

Section Dispatcher.

Variable URL_String : URL -> string.
Variable net : trace -> string -> get_result.

Local Abbreviation healthy := (isServerHealthy URL_String net).
Local Abbreviation unhealthy_run := (probed_unhealthy URL_String net).

(** The flat handler, on a well-formed balancer of [n] servers: it probes
    the first [j <= n] servers of the rotation, each found unhealthy, and
    then either [j = n] and it answers 503 with the index back where it
    was, or the next server of the rotation is healthy and receives the
    request. *)
Lemma Flat_ServeHTTP_run (lb : Flat.LoadBalancer) (r : Request) (t : trace) :
  Flat.wf lb ->
  exists (lb' : Flat.LoadBalancer) (t' : trace) (j : nat) (t1 : trace),
    Flat.ServeHTTP URL_String net lb r t = Ok (lb', t') /\
    Flat.wf lb' /\
    (j <= length (Flat.servers lb))%nat /\
    unhealthy_run (take j (rotate (Z.to_nat (Flat.index lb)) (Flat.servers lb))) t t1 /\
    ((j = length (Flat.servers lb) /\ lb' = lb /\ t' = unavailable :: t1) \/
     (exists server t2,
        rotate (Z.to_nat (Flat.index lb)) (Flat.servers lb) !! j = Some server /\
        healthy server t1 = (true, t2) /\
        Flat.servers lb' = Flat.servers lb /\
        Flat.index lb' = (Flat.index lb + Z.of_nat j + 1) mod len (Flat.servers lb) /\
        t' = forwarded server r :: t2)).
Proof.
  intros Hwf. unfold Flat.ServeHTTP.
  destruct (dispatch_total URL_String net (length (Flat.servers lb)) lb r t Hwf)
    as (lb' & t' & Hrun & Hwf').
  destruct (dispatch_run URL_String net _ _ _ _ _ _ Hrun)
    as (j & cands & lbj & t1 & Hsels & Hp & Hend).
  assert (j <= length (Flat.servers lb))%nat as Hj by (destruct Hend as [[-> _]|[? _]]; lia).
  rewrite selections_prefix in Hsels by done. injection Hsels as <- <-.
  exists lb', t', j, t1. do 4 (split; [done|]).
  destruct Hend as [(-> & -> & ->)|(Hlt & server & t2 & Hsel & Hh & ->)].
  - left. split; [done|]. split; [|done].
    destruct Hwf as [Hidx _]. unfold len in *.
    rewrite <- (Z.mul_1_l (Z.of_nat (length _))) at 1.
    rewrite Z.mod_add by lia. rewrite Z.mod_small by done. by destruct lb.
  - right. exists server, t2.
    destruct (select_wf _ (wf_shift lb (Z.of_nat j) Hwf)) as (server' & Hs & Hsel' & _).
    rewrite Hsel' in Hsel. injection Hsel as -> <-. simpl in *.
    split; [by rewrite rotate_lookup_index|]. split; [done|]. split; [done|].
    split; [|done]. by rewrite Zplus_mod_idemp_l.
Qed.

(** C2 (amended): in the flat program the handler probes the servers of the
    rotation one after the other, at most [len(servers)] of them and none
    twice, forwards to the first one found healthy and answers 503 only
    after all of them were probed unhealthy. In the target-group program
    the handler takes, for each route whose path equals the request path,
    in configuration order, the one candidate that [getNextServer] returns
    and probes it once; it forwards to the first candidate found healthy
    and answers 503 only after every such candidate was absent or probed
    unhealthy. *)
Theorem dispatcher_probing (lb : Flat.LoadBalancer) (glb : Groups.LoadBalancer)
    (r : Request) (t : trace) :
  Flat.wf lb ->
  (exists (lb' : Flat.LoadBalancer) (t' : trace) (j : nat) (t1 : trace),
     Flat.ServeHTTP URL_String net lb r t = Ok (lb', t') /\
     (j <= length (Flat.servers lb))%nat /\
     unhealthy_run (take j (rotate (Z.to_nat (Flat.index lb)) (Flat.servers lb))) t t1 /\
     rotate (Z.to_nat (Flat.index lb)) (Flat.servers lb) ≡ₚ Flat.servers lb /\
     ((j = length (Flat.servers lb) /\ t' = unavailable :: t1) \/
      (exists server t2,
         rotate (Z.to_nat (Flat.index lb)) (Flat.servers lb) !! j = Some server /\
         healthy server t1 = (true, t2) /\
         t' = forwarded server r :: t2))) /\
  (exists (t' : trace) (past : list Groups.TargetGroup) (t1 : trace),
     Groups.ServeHTTP URL_String net glb r t = Ok t' /\
     unhealthy_run (Groups.candidates r past) t t1 /\
     ((past = Groups.targetGroups glb /\ t' = unavailable :: t1) \/
      (exists pool rest server t2,
         Groups.targetGroups glb = past ++ pool :: rest /\
         Path (Request_URL r) = Groups.URIPath pool /\
         Groups.getNextServer pool = Ok (Some server) /\
         healthy server t1 = (true, t2) /\
         t' = forwarded server r :: t2))).
Proof.
  intros Hwf. split.
  - destruct (Flat_ServeHTTP_run lb r t Hwf)
      as (lb' & t' & j & t1 & Hrun & _ & Hj & Hp & Hend).
    exists lb', t', j, t1. do 3 (split; [done|]). split.
    { unfold rotate. rewrite Permutation_app_comm. by rewrite take_drop. }
    destruct Hend as [(-> & _ & ->)|(server & t2 & Hs & Hh & _ & _ & ->)].
    + by left.
    + right. by exists server, t2.
  - unfold Groups.ServeHTTP.
    destruct (range_groups_total URL_String net (Groups.targetGroups glb) r t) as [t' Hrun].
    destruct (range_groups_run URL_String net _ _ _ _ Hrun) as (past & t1 & Hp & Hend).
    by exists t', past, t1.
Qed.

Lemma unhealthy_run_suffix (cands : list Server) (t t' : trace) :
  unhealthy_run cands t t' -> t `suffix_of` t'.
Proof.
  induction 1 as [|server rest t t1 t2 Hh _ IH]; [done|].
  etrans; [|exact IH].
  destruct (isServerHealthy_extends URL_String net server t) as (new & Ht & _).
  rewrite Hh in Ht. simpl in Ht. subst t1. by apply suffix_app_r.
Qed.

Lemma unhealthy_run_all_unhealthy (cands : list Server) (t t' : trace) :
  unhealthy_run cands t t' ->
  forall server, server ∈ cands ->
    exists t0 t1, t `suffix_of` t0 /\ t1 `suffix_of` t' /\ healthy server t0 = (false, t1).
Proof.
  induction 1 as [|server rest t t1 t2 Hh Hrest IH]; intros s Hs.
  - by apply elem_of_nil in Hs.
  - assert (t `suffix_of` t1) as Htt1.
    { destruct (isServerHealthy_extends URL_String net server t) as (new & Ht & _).
      rewrite Hh in Ht. simpl in Ht. subst t1. by apply suffix_app_r. }
    apply elem_of_cons in Hs as [->|Hs].
    + exists t, t1. split; [done|]. split; [|done].
      by eapply unhealthy_run_suffix.
    + destruct (IH s Hs) as (t0 & t3 & ? & ? & ?). exists t0, t3.
      split; [by etrans|done].
Qed.

Lemma spec_resolve_None (groups : list Groups.TargetGroup) (path : string) :
  spec_resolve groups path = None <->
  forall pool, pool ∈ groups -> Groups.URIPath pool <> path.
Proof.
  unfold spec_resolve. induction groups as [|tg rest IH]; simpl.
  - split; [|done]. intros _ pool Hin. by apply elem_of_nil in Hin.
  - destruct (decide (path = Groups.URIPath tg)) as [Hpath|Hpath].
    + rewrite bool_decide_eq_true_2 by done. split; [done|].
      intros Hno. exfalso. eapply (Hno tg); [left|done].
    + rewrite bool_decide_eq_false_2 by done. rewrite IH. split.
      * intros Hno pool [->|Hin]%elem_of_cons; [done|by apply Hno].
      * intros Hno pool Hin. apply Hno. by right.
Qed.

Lemma dispatch_unhealthy (k : nat) (lb lbk : Flat.LoadBalancer) (cands : list Server)
    (r : Request) (t t1 : trace) :
  Flat.selections k lb = Ok (cands, lbk) ->
  unhealthy_run cands t t1 ->
  Flat.dispatch URL_String net k lb r t = Ok (lbk, unavailable :: t1).
Proof.
  revert lb cands t. induction k as [|k IH]; intros lb cands t; simpl.
  - intros [= <- <-] Hrun. by inversion Hrun.
  - destruct (Flat.select lb) as [[server lb1]|]; [|done]. simpl.
    destruct (Flat.selections k lb1) as [[rest lb2]|] eqn:Hrest; [|done]. simpl.
    intros [= <- <-] Hrun. inversion Hrun as [|? ? ? t0 ? Hh Hmore]; subst.
    rewrite Hh. by apply (IH lb1 rest).
Qed.

Lemma range_groups_unhealthy (groups : list Groups.TargetGroup) (r : Request)
    (t t1 : trace) :
  unhealthy_run (Groups.candidates r groups) t t1 ->
  Groups.range_groups URL_String net groups r t = Ok (unavailable :: t1).
Proof.
  revert t. induction groups as [|tg rest IH]; intros t; simpl.
  - intros Hrun. by inversion Hrun.
  - rewrite candidates_cons. destruct (decide _) as [Hpath|Hpath]; [|apply IH].
    rewrite candidate_spec. simpl.
    destruct (Groups.candidate tg) as [server|]; simpl; [|apply IH].
    intros Hrun. inversion Hrun as [|? ? ? t0 ? Hh Hmore]; subst.
    rewrite Hh. by apply IH.
Qed.

(** C4 (amended): a request whose probed candidates are all unhealthy, and
    a request whose path no route has, are answered alike, in both
    programs: the one thing the handler sends to the client is
    [http.Error] with the text "No healthy backend servers available" and
    status 503. The client receives status 503, the two headers that
    [http.Error] sets (the handlers set none themselves), and as body the
    text followed by a newline. The 503 is given exactly when every
    candidate of the request was probed unhealthy: all servers of the
    rotation in the flat program, the candidates of the routes with the
    request's path in the target-group program (none when no route has
    it). *)
Theorem unavailable_response (r : Request) (t : trace) :
  (forall (lb : Flat.LoadBalancer) (t1 : trace),
     Flat.wf lb ->
     (unhealthy_run (rotate (Z.to_nat (Flat.index lb)) (Flat.servers lb)) t t1 <->
      Flat.ServeHTTP URL_String net lb r t = Ok (lb, unavailable :: t1))) /\
  (forall (glb : Groups.LoadBalancer) (t1 : trace),
     unhealthy_run (Groups.candidates r (Groups.targetGroups glb)) t t1 <->
     Groups.ServeHTTP URL_String net glb r t = Ok (unavailable :: t1)) /\
  (forall glb : Groups.LoadBalancer,
     spec_resolve (Groups.targetGroups glb) (Path (Request_URL r)) = None ->
     Groups.ServeHTTP URL_String net glb r t = Ok (unavailable :: t)) /\
  (forall (cands : list Server) (t1 : trace),
     unhealthy_run cands t t1 ->
     client_events (unavailable :: t1) = unavailable :: client_events t) /\
  written unavailable =
    Some {| Status := 503;
            Header := [("Content-Type", "text/plain; charset=utf-8");
                       ("X-Content-Type-Options", "nosniff")];
            Body := "No healthy backend servers available" +:+ newline |}.
Proof.
  split; [|split; [|split; [|split; [|done]]]].
  - intros lb t1 Hwf. split.
    + intros Hrun. unfold Flat.ServeHTTP.
      by apply (dispatch_unhealthy _ lb lb _ r t t1 (selections_round lb Hwf)).
    + intros Hres.
      destruct (Flat_ServeHTTP_run lb r t Hwf)
        as (lb' & t' & j & t0 & Hrun & _ & _ & Hp & Hend).
      rewrite Hres in Hrun. injection Hrun as <- <-.
      destruct Hend as [(-> & _ & [= <-])|(server & t2 & _ & _ & _ & _ & [=])].
      by rewrite take_ge in Hp by (by rewrite length_rotate).
  - intros glb t1. unfold Groups.ServeHTTP. split; [apply range_groups_unhealthy|].
    intros Hres.
    destruct (range_groups_run URL_String net _ _ _ _ Hres) as (past & t0 & Hp & Hend).
    destruct Hend as [[-> [= <-]]|(pool & rest & server & t2 & _ & _ & _ & _ & [=])].
    done.
  - intros glb Hnone. apply range_groups_no_match. by apply spec_resolve_None.
  - intros cands t1 Hrun. simpl. f_equal. by eapply unhealthy_run_client_events.
Qed.


(** With pairwise distinct route paths, only the first match can serve. *)
Lemma range_groups_first_match (groups : list Groups.TargetGroup) (r : Request) (t : trace) :
  NoDup (Groups.URIPath <$> groups) ->
  Groups.range_groups URL_String net groups r t =
    match spec_resolve groups (Path (Request_URL r)) with
    | Some pool => Groups.range_groups URL_String net [pool] r t
    | None => Ok (unavailable :: t)
    end.
Proof.
  induction groups as [|tg rest IH]; intros Hnd; [done|].
  apply NoDup_cons in Hnd as [Hnotin Hnd]. unfold spec_resolve in *. simpl.
  destruct (decide (Path (Request_URL r) = Groups.URIPath tg)) as [Hpath|Hpath].
  - rewrite bool_decide_eq_true_2 by done. simpl.
    destruct (decide _); [|done].
    assert (forall t1, Groups.range_groups URL_String net rest r t1 = Ok (unavailable :: t1))
      as Hrest.
    { intros t1. apply range_groups_no_match. intros tg' Hin Heq.
      apply Hnotin. rewrite <- Hpath, <- Heq. by apply list_elem_of_fmap_2. }
    destruct (Groups.getNextServer tg) as [[server|]|]; simpl; [|done..].
    destruct (healthy server t) as [[] t1]; [done|apply Hrest].
  - rewrite bool_decide_eq_false_2 by done. by apply IH.
Qed.

Lemma spec_resolve_app (past rest : list Groups.TargetGroup) (pool : Groups.TargetGroup)
    (path : string) :
  (forall tg, tg ∈ past -> Groups.URIPath tg <> path) ->
  Groups.URIPath pool = path ->
  spec_resolve (past ++ pool :: rest) path = Some pool.
Proof.
  intros Hpast Hpool. unfold spec_resolve.
  induction past as [|tg past IH]; simpl.
  - by rewrite bool_decide_eq_true_2.
  - rewrite bool_decide_eq_false_2.
    + apply IH. intros tg' Hin. apply Hpast. by right.
    + intros Heq. eapply (Hpast tg); [left|done].
Qed.

(** C5 (amended): the target-group handler compares the request path with
    each route's path by exact string equality, in configuration order.
    When the route paths are pairwise distinct it serves the request from
    the pool of the first (and only) match, as the Router of the
    specification does. In general a forwarded request goes to the
    candidate of a route whose path equals the request path, namely the
    first such route whose candidate is present and healthy: a request to
    /app1 is never forwarded to the pool of /app2. A request to a path
    that no route has gets the same 503 as an exhausted pool. *)
Theorem router_exact_match (glb : Groups.LoadBalancer) (r : Request) (t : trace) :
  (NoDup (Groups.URIPath <$> Groups.targetGroups glb) ->
   Groups.ServeHTTP URL_String net glb r t = spec_dispatch URL_String net glb r t) /\
  (forall target r' t',
     Groups.ServeHTTP URL_String net glb r t = Ok (EvProxy target r' :: t') ->
     exists past pool rest server t1,
       Groups.targetGroups glb = past ++ pool :: rest /\
       Groups.URIPath pool = Path (Request_URL r) /\
       server ∈ Groups.Servers pool /\
       target = Server_URL server /\
       unhealthy_run (Groups.candidates r past) t t1 /\
       healthy server t1 = (true, t')) /\
  (spec_resolve (Groups.targetGroups glb) (Path (Request_URL r)) = None ->
   Groups.ServeHTTP URL_String net glb r t = Ok (unavailable :: t)).
Proof.
  split; [|split].
  - intros Hnd. unfold spec_dispatch, Groups.ServeHTTP. simpl.
    by apply range_groups_first_match.
  - intros target r' t' Hrun.
    destruct (range_groups_run URL_String net _ _ _ _ Hrun) as (past & t1 & Hp & Hend).
    destruct Hend as [[_ [=]]|(pool & rest & server & t2 & Hg & Hpath & Hnext & Hh & Ht')].
    injection Ht' as -> _ ->.
    exists past, pool, rest, server, t1. do 2 (split; [done|]).
    split; [|done]. apply (candidate_elem_of pool).
    rewrite candidate_spec in Hnext. by injection Hnext.
  - intros Hnone. apply range_groups_no_match. by apply spec_resolve_None.
Qed.

(** C8 (amended): in the target-group program a request is forwarded at
    most once, and the backend it is forwarded to belongs to the pool of a
    route whose path equals the request path: the first such route whose
    candidate is present and probed healthy, every earlier route with that
    path having offered no candidate or one probed unhealthy. When no
    earlier route has that path, this is the first route whose path equals
    the request path. *)
Theorem forwarded_pool (glb : Groups.LoadBalancer) (r : Request) (t t' : trace)
    (target : URL) (r' : Request) :
  Groups.ServeHTTP URL_String net glb r t = Ok (EvProxy target r' :: t') ->
  exists past pool rest server t1,
    Groups.targetGroups glb = past ++ pool :: rest /\
    Groups.URIPath pool = Path (Request_URL r) /\
    Groups.getNextServer pool = Ok (Some server) /\
    server ∈ Groups.Servers pool /\
    target = Server_URL server /\
    unhealthy_run (Groups.candidates r past) t t1 /\
    healthy server t1 = (true, t') /\
    client_events (EvProxy target r' :: t') = EvProxy target r' :: client_events t /\
    ((forall tg, tg ∈ past -> Groups.URIPath tg <> Path (Request_URL r)) ->
     spec_resolve (Groups.targetGroups glb) (Path (Request_URL r)) = Some pool).
Proof.
  intros Hrun.
  destruct (range_groups_run URL_String net _ _ _ _ Hrun) as (past & t1 & Hp & Hend).
  destruct Hend as [[_ [=]]|(pool & rest & server & t2 & Hg & Hpath & Hnext & Hh & Ht')].
  injection Ht' as -> _ ->.
  exists past, pool, rest, server, t1. do 3 (split; [done|]).
  split.
  { apply (candidate_elem_of pool). rewrite candidate_spec in Hnext. by injection Hnext. }
  do 3 (split; [done|]). split.
  - simpl. f_equal.
    pose proof (isServerHealthy_client_events URL_String net server t1) as Hc.
    rewrite Hh in Hc. simpl in Hc. rewrite Hc.
    by eapply unhealthy_run_client_events.
  - intros Hpast. rewrite Hg. by apply spec_resolve_app.
Qed.

Lemma dispatch_forwarded (k : nat) (lb lb' : Flat.LoadBalancer) (r r' : Request)
    (t t' : trace) (target : URL) :
  Flat.dispatch URL_String net k lb r t = Ok (lb', EvProxy target r' :: t') ->
  exists server,
    server ∈ Flat.servers lb /\ EvProxy target r' = forwarded server r /\
    client_events t' = client_events t.
Proof.
  revert lb t. induction k as [|k IH]; intros lb t; simpl; [done|].
  destruct (Flat.select lb) as [[server lb1]|] eqn:Hsel; [|done]. simpl.
  apply select_servers in Hsel as [Hservers Hin].
  pose proof (isServerHealthy_client_events URL_String net server t) as Hc.
  destruct (healthy server t) as [[] t1]; simpl in Hc.
  - intros [= <- <- <- <-]. by exists server.
  - intros Hrun. destruct (IH _ _ Hrun) as (s & Hs & ? & Hc').
    exists s. rewrite <- Hservers, <- Hc. done.
Qed.

(** C9: whenever a request with path [P] is forwarded, in either program,
    the request handed to the reverse proxy of the chosen backend has the
    path "/" followed by the backend's host followed by [P], and is
    otherwise the request received. *)
Theorem forwarding_rewrite (r : Request) (t : trace) :
  (forall lb lb' target r' t',
     Flat.ServeHTTP URL_String net lb r t = Ok (lb', EvProxy target r' :: t') ->
     (exists server, server ∈ Flat.servers lb /\ target = Server_URL server) /\
     Path (Request_URL r') = "/" +:+ Host target +:+ Path (Request_URL r) /\
     Scheme (Request_URL r') = Scheme (Request_URL r) /\
     Host (Request_URL r') = Host (Request_URL r)) /\
  (forall glb target r' t',
     Groups.ServeHTTP URL_String net glb r t = Ok (EvProxy target r' :: t') ->
     (exists pool server,
        pool ∈ Groups.targetGroups glb /\ server ∈ Groups.Servers pool /\
        target = Server_URL server) /\
     Path (Request_URL r') = "/" +:+ Host target +:+ Path (Request_URL r) /\
     Scheme (Request_URL r') = Scheme (Request_URL r) /\
     Host (Request_URL r') = Host (Request_URL r)).
Proof.
  split.
  - intros lb lb' target r' t' Hrun.
    apply dispatch_forwarded in Hrun as (server & Hin & [= -> ->] & _).
    split; [by exists server|done].
  - intros glb target r' t' Hrun.
    destruct (range_groups_run URL_String net _ _ _ _ Hrun) as (past & t1 & Hp & Hend).
    destruct Hend as [[_ [=]]|(pool & rest & server & t2 & Hg & Hpath & Hnext & Hh & Ht')].
    injection Ht' as -> -> ->. split; [|done].
    exists pool, server. split; [rewrite Hg; apply elem_of_app; right; left|].
    split; [|done]. apply (candidate_elem_of pool).
    rewrite candidate_spec in Hnext. by injection Hnext.
Qed.

(** A group without servers leaves no trace of itself: the handler goes
    past it without a probe. *)
Lemma range_groups_skip_empty (past rest : list Groups.TargetGroup)
    (pool : Groups.TargetGroup) (r : Request) (t : trace) :
  Groups.Servers pool = [] ->
  Groups.range_groups URL_String net (past ++ pool :: rest) r t =
    Groups.range_groups URL_String net (past ++ rest) r t.
Proof.
  intros Hpool. revert t. induction past as [|tg past IH]; intros t; simpl.
  - destruct (decide _); [|done].
    unfold Groups.getNextServer. by rewrite Hpool.
  - destruct (decide _); [|apply IH].
    destruct (Groups.getNextServer tg) as [[server|]|]; simpl; [|apply IH|done].
    destruct (isServerHealthy URL_String net server t) as [[] t1]; [done|apply IH].
Qed.

(** C10 (amended): a request against an empty list of servers does not
    panic. In the flat program the loop runs no iteration, whatever the
    index, and the client gets the 503. In the target-group program
    [getNextServer] returns nil for a group without servers and the
    handler, which never panics, goes past that group as if it were not
    configured: the client gets the 503 when every group with the path of
    the request is empty, and otherwise what the remaining groups with
    that path give. *)
Theorem empty_pool_safe (r : Request) (t : trace) :
  (forall lb : Flat.LoadBalancer,
     Flat.servers lb = [] ->
     Flat.ServeHTTP URL_String net lb r t = Ok (lb, unavailable :: t)) /\
  (forall pool, Groups.Servers pool = [] -> Groups.getNextServer pool = Ok None) /\
  (forall glb : Groups.LoadBalancer,
     exists t', Groups.ServeHTTP URL_String net glb r t = Ok t') /\
  (forall (past rest : list Groups.TargetGroup) (pool : Groups.TargetGroup),
     Groups.Servers pool = [] ->
     Groups.ServeHTTP URL_String net {| Groups.targetGroups := past ++ pool :: rest |} r t =
       Groups.ServeHTTP URL_String net {| Groups.targetGroups := past ++ rest |} r t) /\
  (forall glb : Groups.LoadBalancer,
     (forall pool, pool ∈ Groups.targetGroups glb ->
        Path (Request_URL r) = Groups.URIPath pool -> Groups.Servers pool = []) ->
     Groups.ServeHTTP URL_String net glb r t = Ok (unavailable :: t)).
Proof.
  split; [|split; [|split; [|split]]].
  - intros lb Hflat. unfold Flat.ServeHTTP. by rewrite Hflat.
  - intros pool Hpool. unfold Groups.getNextServer. by rewrite Hpool.
  - intros glb. apply range_groups_total.
  - intros past rest pool Hpool. by apply range_groups_skip_empty.
  - intros glb Hgroups. unfold Groups.ServeHTTP.
    induction (Groups.targetGroups glb) as [|tg rest IH]; simpl.
    + done.
    + assert (forall pool, pool ∈ rest ->
                Path (Request_URL r) = Groups.URIPath pool -> Groups.Servers pool = [])
        as Hrest by (intros pool Hin; apply Hgroups; by right).
      destruct (decide _) as [Hpath|_]; [|by apply IH].
      unfold Groups.getNextServer. rewrite (Hgroups tg) by (done || left). simpl.
      by apply IH.
Qed.

End Dispatcher.

(** ** The programs on concrete configurations *)

(** C1 (the code departs from the claim): [getNextServer] keeps no cursor.
    On the group /app1 of [main], with servers 8081 and 8082, every
    selection returns 8082 and none returns 8081, where the claim has two
    selections visit both servers. The flat program, on the same two
    servers, does rotate: 8081, 8082, then 8081 again. *)
Theorem getNextServer_repeats :
  Groups.getNextServer app1 = Ok (Some s8082) /\
  Groups.selections 2 app1 = Ok [Some s8082; Some s8082] /\
  Groups.selections 3 app1 = Ok [Some s8082; Some s8082; Some s8082] /\
  Flat.selections 3 main_flat =
    Ok ([s8081; s8082; s8081], {| Flat.servers := [s8081; s8082]; Flat.index := 1 |}).
Proof. repeat split; vm_compute; reflexivity. Qed.

(** C7 (the code departs from the claim): the target-group program has no
    rotation state that outlives a call. With every backend healthy, two
    requests for /app1 in a row are both forwarded to 8082: the second
    selection does not see an advance made by the first. The flat program
    forwards the first request to 8081 and the second to 8082, its index
    going from 0 to 1 and back to 0. *)
Theorem rotation_state_not_kept :
  let r := request "/app1" in
  let probe port := EvGet ("http://localhost:" +:+ port +:+ "/health") (Resp 200) in
  let t1 := [forwarded s8082 r; probe "8082"] in
  let u1 := [forwarded s8081 r; probe "8081"] in
  Groups.ServeHTTP render net_up main_groups r [] = Ok t1 /\
  Groups.ServeHTTP render net_up main_groups r t1 =
    Ok (forwarded s8082 r :: probe "8082" :: t1) /\
  Flat.ServeHTTP render net_up main_flat r [] =
    Ok ({| Flat.servers := [s8081; s8082]; Flat.index := 1 |}, u1) /\
  Flat.ServeHTTP render net_up {| Flat.servers := [s8081; s8082]; Flat.index := 1 |} r u1 =
    Ok ({| Flat.servers := [s8081; s8082]; Flat.index := 0 |},
        forwarded s8082 r :: probe "8082" :: u1).
Proof. repeat split; vm_compute; reflexivity. Qed.

(** The scenario of the specification on the flat program: pool
    [8081 (healthy), 8082 (down)], index on 8081. The first request goes to
    8081; the second selects 8082, fails three health checks, selects 8081
    and goes there. *)
Example flat_two_requests :
  let r := request "/x" in
  let up := EvGet "http://localhost:8081/health" (Resp 200) in
  let down := EvGet "http://localhost:8082/health" TransportErr in
  let lb1 := {| Flat.servers := [s8081; s8082]; Flat.index := 1 |} in
  Flat.ServeHTTP render net_8081 main_flat r [] = Ok (lb1, [forwarded s8081 r; up]) /\
  Flat.ServeHTTP render net_8081 lb1 r [] =
    Ok (lb1, [forwarded s8081 r; up; EvSleep 1; down; EvSleep 1; down; EvSleep 1; down]).
Proof. split; vm_compute; reflexivity. Qed.

(** C2 fails as stated in the target-group program: with 8081 up and 8082
    down, a request for /app1 is answered 503 after the probe of 8082 alone;
    8081, a backend of the resolved pool, was never probed unhealthy. *)
Lemma gives_up_before_all_probed :
  ~ gives_up_after_all_probed render net_8081 main_groups (request "/app1") [].
Proof.
  intros Hclaim.
  destruct (Hclaim app1
              [EvSleep 1; EvGet "http://localhost:8082/health" TransportErr;
               EvSleep 1; EvGet "http://localhost:8082/health" TransportErr;
               EvSleep 1; EvGet "http://localhost:8082/health" TransportErr]
              eq_refl eq_refl s8081) as (t0 & t1 & _ & _ & Hprobe).
  - left.
  - vm_compute in Hprobe. discriminate Hprobe.
Qed.

(** C5 fails as stated when two routes have the same path: with 8081 down
    and 8083 up, a request for /app1 against two routes for /app1 is
    forwarded to 8083, the backend of the second route, where serving from
    the first match's pool answers 503. *)
Lemma second_match_serves :
  Groups.ServeHTTP render net_8083 twice_app1 (request "/app1") [] <>
    spec_dispatch render net_8083 twice_app1 (request "/app1") [] /\
  head <$> Groups.ServeHTTP render net_8083 twice_app1 (request "/app1") [] =
    Ok (Some (forwarded s8083 (request "/app1"))) /\
  head <$> spec_dispatch render net_8083 twice_app1 (request "/app1") [] =
    Ok (Some unavailable).
Proof. repeat split; vm_compute; congruence. Qed.

(** C8 fails as stated on the same configuration: the request is forwarded
    to 8083, which is not in the pool of the first route whose path equals
    the request path. *)
Lemma forwarded_outside_first_match :
  ~ forwarded_from_first_match render net_8083 twice_app1 (request "/app1") [].
Proof.
  intros Hclaim.
  destruct (Hclaim (localhost "8083")
              {| Request_URL := {| Scheme := ""; Host := ""; Path := "/localhost:8083/app1" |} |}
              [EvGet "http://localhost:8083/health" (Resp 200);
               EvSleep 1; EvGet "http://localhost:8081/health" TransportErr;
               EvSleep 1; EvGet "http://localhost:8081/health" TransportErr;
               EvSleep 1; EvGet "http://localhost:8081/health" TransportErr]
              eq_refl) as (pool & server & Hpool & Hin & Htarget).
  vm_compute in Hpool. injection Hpool as <-. simpl in Hin.
  apply list_elem_of_singleton in Hin as ->. vm_compute in Htarget. discriminate Htarget.
Qed.

(** ** The theorems with hypotheses, at concrete inputs *)

Lemma dispatcher_probing_witness :
  Flat.wf main_flat /\
  ((exists (lb' : Flat.LoadBalancer) (t' : trace) (j : nat) (t1 : trace),
      Flat.ServeHTTP render net_8081 main_flat (request "/app1") [] = Ok (lb', t') /\
      (j <= length (Flat.servers main_flat))%nat /\
      probed_unhealthy render net_8081
        (take j (rotate (Z.to_nat (Flat.index main_flat)) (Flat.servers main_flat))) [] t1 /\
      rotate (Z.to_nat (Flat.index main_flat)) (Flat.servers main_flat)
        ≡ₚ Flat.servers main_flat /\
      ((j = length (Flat.servers main_flat) /\ t' = unavailable :: t1) \/
       (exists server t2,
          rotate (Z.to_nat (Flat.index main_flat)) (Flat.servers main_flat) !! j
            = Some server /\
          isServerHealthy render net_8081 server t1 = (true, t2) /\
          t' = forwarded server (request "/app1") :: t2))) /\
   (exists (t' : trace) (past : list Groups.TargetGroup) (t1 : trace),
      Groups.ServeHTTP render net_8081 main_groups (request "/app1") [] = Ok t' /\
      probed_unhealthy render net_8081 (Groups.candidates (request "/app1") past) [] t1 /\
      ((past = Groups.targetGroups main_groups /\ t' = unavailable :: t1) \/
       (exists pool rest server t2,
          Groups.targetGroups main_groups = past ++ pool :: rest /\
          Path (Request_URL (request "/app1")) = Groups.URIPath pool /\
          Groups.getNextServer pool = Ok (Some server) /\
          isServerHealthy render net_8081 server t1 = (true, t2) /\
          t' = forwarded server (request "/app1") :: t2)))).
Proof.
  split.
  - unfold Flat.wf, len, int_max. simpl. lia.
  - apply (dispatcher_probing render net_8081 main_flat main_groups (request "/app1") []).
    unfold Flat.wf, len, int_max. simpl. lia.
Defined.

(** C4 fails as stated: a request for a path that no route has is answered
    by [http.Error], whose body ends in a newline and which sets two
    headers; this is not the bare 503 of the sentence. *)
Lemma unavailable_not_bare :
  ~ unmatched_gets_bare_503 render net_up main_groups (request "/other") [].
Proof.
  intros Hclaim. destruct (Hclaim eq_refl) as (e & t1 & Hrun & Hwritten).
  vm_compute in Hrun. injection Hrun as <- <-.
  vm_compute in Hwritten. discriminate Hwritten.
Qed.

Lemma unavailable_response_witness :
  let down port := EvGet ("http://localhost:" +:+ port +:+ "/health") TransportErr in
  let t8081 := [EvSleep 1; down "8081"; EvSleep 1; down "8081"; EvSleep 1; down "8081"] in
  let t8082 := [EvSleep 1; down "8082"; EvSleep 1; down "8082"; EvSleep 1; down "8082"] in
  Flat.wf main_flat /\
  probed_unhealthy render net_late
    (rotate (Z.to_nat (Flat.index main_flat)) (Flat.servers main_flat)) [] (t8082 ++ t8081) /\
  Flat.ServeHTTP render net_late main_flat (request "/app1") [] =
    Ok (main_flat, unavailable :: t8082 ++ t8081) /\
  probed_unhealthy render net_late
    (Groups.candidates (request "/app1") (Groups.targetGroups main_groups)) [] t8082 /\
  Groups.ServeHTTP render net_late main_groups (request "/app1") [] =
    Ok (unavailable :: t8082) /\
  spec_resolve (Groups.targetGroups main_groups) (Path (Request_URL (request "/other")))
    = None /\
  Groups.ServeHTTP render net_up main_groups (request "/other") [] = Ok [unavailable] /\
  client_events (unavailable :: t8082) = unavailable :: client_events [].
Proof.
  intros down t8081 t8082.
  assert (Flat.wf main_flat) as Hwf by (unfold Flat.wf, len, int_max; simpl; lia).
  assert (probed_unhealthy render net_late
            (rotate (Z.to_nat (Flat.index main_flat)) (Flat.servers main_flat))
            [] (t8082 ++ t8081)) as Hflat.
  { apply (probed_cons render net_late s8081 [s8082] [] t8081); [reflexivity|].
    apply (probed_cons render net_late s8082 [] t8081 (t8082 ++ t8081)); [reflexivity|].
    apply probed_nil. }
  assert (probed_unhealthy render net_late
            (Groups.candidates (request "/app1") (Groups.targetGroups main_groups))
            [] t8082) as Hgroups.
  { apply (probed_cons render net_late s8082 [] [] t8082); [reflexivity|].
    apply probed_nil. }
  pose proof (unavailable_response render net_late (request "/app1") [])
    as (Hf & Hg & _ & Hc & _).
  pose proof (unavailable_response render net_up (request "/other") [])
    as (_ & _ & Hnone & _ & _).
  split; [exact Hwf|]. split; [exact Hflat|].
  split; [exact (proj1 (Hf main_flat _ Hwf) Hflat)|].
  split; [exact Hgroups|].
  split; [exact (proj1 (Hg main_groups _) Hgroups)|].
  split; [reflexivity|].
  split; [exact (Hnone main_groups eq_refl)|].
  exact (Hc _ _ Hgroups).
Defined.

Lemma router_exact_match_witness :
  NoDup (Groups.URIPath <$> Groups.targetGroups main_groups) /\
  Groups.ServeHTTP render net_up main_groups (request "/app2") [] =
    spec_dispatch render net_up main_groups (request "/app2") [] /\
  (exists past pool rest server t1,
     Groups.targetGroups main_groups = past ++ pool :: rest /\
     Groups.URIPath pool = Path (Request_URL (request "/app2")) /\
     server ∈ Groups.Servers pool /\
     Server_URL s8084 = Server_URL server /\
     probed_unhealthy render net_up (Groups.candidates (request "/app2") past) [] t1 /\
     isServerHealthy render net_up server t1 =
       (true, [EvGet "http://localhost:8084/health" (Resp 200)])) /\
  spec_resolve (Groups.targetGroups main_groups) (Path (Request_URL (request "/other"))) = None /\
  Groups.ServeHTTP render net_up main_groups (request "/other") [] = Ok [unavailable].
Proof.
  assert (NoDup (Groups.URIPath <$> Groups.targetGroups main_groups)) as Hnd.
  { simpl. apply NoDup_cons. split.
    - intros Hin. apply list_elem_of_singleton in Hin. discriminate Hin.
    - apply NoDup_singleton. }
  split; [exact Hnd|]. split; [|split; [|split]].
  - exact (proj1 (router_exact_match render net_up main_groups (request "/app2") []) Hnd).
  - exact (proj1 (proj2 (router_exact_match render net_up main_groups (request "/app2") []))
             (Server_URL s8084) _ _ eq_refl).
  - reflexivity.
  - exact (proj2 (proj2 (router_exact_match render net_up main_groups (request "/other") []))
             eq_refl).
Defined.


Lemma forwarded_pool_witness :
  Groups.ServeHTTP render net_up main_groups (request "/app1") [] =
    Ok [forwarded s8082 (request "/app1"); EvGet "http://localhost:8082/health" (Resp 200)] /\
  exists past pool rest server t1,
    Groups.targetGroups main_groups = past ++ pool :: rest /\
    Groups.URIPath pool = Path (Request_URL (request "/app1")) /\
    Groups.getNextServer pool = Ok (Some server) /\
    server ∈ Groups.Servers pool /\
    Server_URL s8082 = Server_URL server /\
    probed_unhealthy render net_up (Groups.candidates (request "/app1") past) [] t1 /\
    isServerHealthy render net_up server t1 =
      (true, [EvGet "http://localhost:8082/health" (Resp 200)]) /\
    client_events
      [forwarded s8082 (request "/app1"); EvGet "http://localhost:8082/health" (Resp 200)] =
      forwarded s8082 (request "/app1") :: client_events [] /\
    ((forall tg, tg ∈ past -> Groups.URIPath tg <> Path (Request_URL (request "/app1"))) ->
     spec_resolve (Groups.targetGroups main_groups) (Path (Request_URL (request "/app1")))
       = Some pool).
Proof.
  split; [reflexivity|].
  exact (forwarded_pool render net_up main_groups (request "/app1") [] _ _ _ eq_refl).
Defined.

Lemma forwarding_rewrite_witness :
  Flat.ServeHTTP render net_up main_flat (request "/x") [] =
    Ok ({| Flat.servers := [s8081; s8082]; Flat.index := 1 |},
        [forwarded s8081 (request "/x"); EvGet "http://localhost:8081/health" (Resp 200)]) /\
  Groups.ServeHTTP render net_up main_groups (request "/app1") [] =
    Ok [forwarded s8082 (request "/app1"); EvGet "http://localhost:8082/health" (Resp 200)] /\
  "/localhost:8081/x" = "/" +:+ Host (Server_URL s8081) +:+ Path (Request_URL (request "/x")) /\
  "/localhost:8082/app1" =
    "/" +:+ Host (Server_URL s8082) +:+ Path (Request_URL (request "/app1")).
Proof.
  split; [reflexivity|]. split; [reflexivity|]. split.
  - exact (proj1 (proj2
      (proj1 (forwarding_rewrite render net_up (request "/x") []) main_flat _ _ _ _ eq_refl))).
  - exact (proj1 (proj2
      (proj2 (forwarding_rewrite render net_up (request "/app1") []) main_groups _ _ _ eq_refl))).
Defined.

(** C10 fails as stated in the target-group program: the first route for
    /app1 has no server, a second route for /app1 has a server without a
    health-check path, and the request, resolved to the empty pool, is
    forwarded to that server instead of being answered 503. *)
Lemma empty_group_then_forwarded :
  ~ empty_pool_gets_503 render net_down empty_then_unchecked (request "/app1") [].
Proof.
  intros Hclaim.
  destruct (Hclaim {| Groups.URIPath := "/app1"; Groups.Servers := [] |} eq_refl eq_refl)
    as [t1 Hrun].
  vm_compute in Hrun. discriminate Hrun.
Qed.

Lemma empty_pool_safe_witness :
  Flat.servers empty_flat = [] /\
  Flat.ServeHTTP render net_up empty_flat (request "/app1") [] = Ok (empty_flat, [unavailable]) /\
  Groups.getNextServer {| Groups.URIPath := "/app1"; Groups.Servers := [] |} = Ok None /\
  (exists t', Groups.ServeHTTP render net_up empty_then_unchecked (request "/app1") [] = Ok t') /\
  Groups.ServeHTTP render net_up empty_then_unchecked (request "/app1") [] =
    Groups.ServeHTTP render net_up
      {| Groups.targetGroups := [{| Groups.URIPath := "/app1"; Groups.Servers := [unchecked] |}] |}
      (request "/app1") [] /\
  (forall pool, pool ∈ Groups.targetGroups empty_app ->
     Path (Request_URL (request "/app1")) = Groups.URIPath pool -> Groups.Servers pool = []) /\
  Groups.ServeHTTP render net_up empty_app (request "/app1") [] = Ok [unavailable].
Proof.
  assert (forall pool, pool ∈ Groups.targetGroups empty_app ->
            Path (Request_URL (request "/app1")) = Groups.URIPath pool ->
            Groups.Servers pool = []) as Hempty.
  { intros pool Hin _. simpl in Hin. apply list_elem_of_singleton in Hin as ->. reflexivity. }
  pose proof (empty_pool_safe render net_up (request "/app1") [])
    as (Hflat & Hnil & Htotal & Hskip & Hall).
  split; [reflexivity|].
  split; [exact (Hflat empty_flat eq_refl)|].
  split; [exact (Hnil {| Groups.URIPath := "/app1"; Groups.Servers := [] |} eq_refl)|].
  split; [exact (Htotal empty_then_unchecked)|].
  split; [exact (Hskip [] [{| Groups.URIPath := "/app1"; Groups.Servers := [unchecked] |}]
                   {| Groups.URIPath := "/app1"; Groups.Servers := [] |} eq_refl)|].
  split; [exact Hempty|].
  exact (Hall empty_app Hempty).
Defined.

(** * Further properties of the code *)

(** ** The probe: pauses and bounds *)

Section ProbeBounds.

Variable URL_String : URL -> string.
Variable net : trace -> string -> get_result.

Local Abbreviation healthy := (isServerHealthy URL_String net).
Local Abbreviation unhealthy_run := (probed_unhealthy URL_String net).

Lemma sleeps_app (a b : trace) : sleeps (a ++ b) = sleeps b ++ sleeps a.
Proof. unfold sleeps. by rewrite reverse_app, omap_app. Qed.

Lemma targets_app (a b : trace) : targets (a ++ b) = targets b ++ targets a.
Proof. unfold targets. by rewrite reverse_app, omap_app. Qed.

Lemma targets_no_client_events (new : trace) :
  client_events new = [] -> targets new = [].
Proof.
  induction new as [|e new IH]; [done|].
  change (e :: new) with ([e] ++ new). rewrite client_events_app, targets_app.
  destruct e; simpl; try done; intros H; by rewrite IH.
Qed.

Lemma filter_all_failed (attempts : list get_result) :
  Forall (fun a => attempt_failed a = true) attempts ->
  List.filter attempt_failed attempts = attempts.
Proof.
  induction 1 as [|a l Ha _ IH]; simpl; [done|]. by rewrite Ha, IH.
Qed.

(** One probe, counted: at most three requests, and one pause of one second
    after each request that failed. *)
Lemma healthy_counted (server : Server) (t : trace) :
  exists new,
    (healthy server t).2 = new ++ t /\
    client_events new = [] /\
    (length (gets new) <= 3)%nat /\
    Forall (fun s => s = 1) (sleeps new) /\
    (healthCheckPath server <> "" ->
     (1 <= length (gets new))%nat /\
     length (gets new) =
       (length (sleeps new) + (if (healthy server t).1 then 1 else 0))%nat /\
     ((healthy server t).1 = false -> length (gets new) = 3%nat)).
Proof.
  unfold isServerHealthy. destruct (decide _) as [Hempty|Hpath].
  - exists []. simpl. repeat split; try done; lia.
  - destruct (retry_loop_spec URL_String net maxRetries (health_url URL_String server) t)
      as (new & attempts & Ht & Hc & _ & Hg & Hs & Hb).
    exists new. split; [done|]. split; [done|].
    assert (length (gets new) = length attempts) as Hlen by (by rewrite Hg, length_fmap).
    rewrite Hlen, Hs, length_replicate.
    destruct (retry_loop net maxRetries _ t).1.
    + destruct Hb as (failed & ok & -> & Hf & Hok & Hle).
      rewrite List.filter_app, filter_all_failed by done. simpl. rewrite Hok.
      rewrite app_nil_r, length_app in *. simpl in *. unfold maxRetries in Hle.
      split; [lia|]. split; [by apply Forall_replicate|]. intros _.
      split; [lia|]. split; [lia|done].
    + destruct Hb as [Hn Hf]. rewrite filter_all_failed by done.
      unfold maxRetries in Hn. rewrite Hn.
      split; [lia|]. split; [by apply Forall_replicate|]. intros _.
      split; [lia|]. split; [lia|done].
Qed.

Lemma probe_events_cons (url : string) (a : get_result) (attempts : list get_result) :
  probe_events url (a :: attempts) =
    probe_events url attempts ++ reverse (attempt_events url a).
Proof. unfold probe_events. by rewrite bind_cons, reverse_app. Qed.

Lemma attempt_events_failed (url : string) (a : get_result) :
  a <> Resp 200 -> attempt_events url a = [EvGet url a; EvSleep 1].
Proof.
  intros Ha. apply attempt_failed_true in Ha. unfold attempt_events. by rewrite Ha.
Qed.

(** The events of the retry loop, in order. *)
Lemma retry_loop_events (n : nat) (url : string) (t : trace) :
  exists attempts,
    (retry_loop net n url t).2 = probe_events url attempts ++ t /\
    answered net (probe_events url attempts) t /\
    if (retry_loop net n url t).1
    then (length attempts <= n)%nat /\
         exists failed, attempts = failed ++ [Resp 200] /\
                        Forall (fun a => a <> Resp 200) failed
    else length attempts = n /\ Forall (fun a => a <> Resp 200) attempts.
Proof.
  revert t. induction n as [|n IH]; intros t; simpl.
  - exists []. by repeat split.
  - destruct (attempt_failed (net t url)) eqn:Hres.
    + destruct (IH (EvSleep 1 :: EvGet url (net t url) :: t)) as (attempts & Ht & Hans & Hb).
      assert (net t url <> Resp 200) as Hne by (by apply attempt_failed_true).
      exists (net t url :: attempts).
      rewrite probe_events_cons, attempt_events_failed by done.
      change (reverse [EvGet url (net t url); EvSleep 1])
        with [EvSleep 1; EvGet url (net t url)].
      split; [by rewrite Ht, <- (assoc_L (++))|].
      split; [apply (proj2 (answered_app URL_String net _ _ _)); by split|].
      destruct (retry_loop net n url _).1.
      * destruct Hb as (Hlen & failed & -> & Hf). split; [simpl; lia|].
        exists (net t url :: failed). split; [done|]. by constructor.
      * destruct Hb as [<- Hf]. split; [done|]. by constructor.
    + apply attempt_failed_false in Hres. rewrite Hres.
      exists [Resp 200]. split; [done|]. split; [split; [symmetry; exact Hres|exact I]|].
      split; [simpl; lia|]. by exists [].
Qed.

(** X13: the events of the probe of a backend with a health-check path
    are, in order, its GETs to the health URL, each GET that failed being
    followed at once by a pause of one second, the third one included, and
    a GET answered 200 being the last event. There is no other pause and
    nothing is sent to the client. *)
Theorem probe_pauses (server : Server) (t : trace) :
  healthCheckPath server <> "" ->
  exists attempts,
    (healthy server t).2 = probe_events (health_url URL_String server) attempts ++ t /\
    probe_events (health_url URL_String server) attempts =
      reverse (attempts ≫= fun a =>
                 if decide (a = Resp 200)
                 then [EvGet (health_url URL_String server) a]
                 else [EvGet (health_url URL_String server) a; EvSleep 1]) /\
    (1 <= length attempts <= 3)%nat /\
    if (healthy server t).1
    then exists failed, attempts = failed ++ [Resp 200] /\
                        Forall (fun a => a <> Resp 200) failed
    else length attempts = 3%nat /\ Forall (fun a => a <> Resp 200) attempts.
Proof.
  intros Hpath. unfold isServerHealthy. destruct (decide _) as [|_]; [done|].
  destruct (retry_loop_events maxRetries (health_url URL_String server) t)
    as (attempts & Ht & _ & Hb).
  exists attempts. split; [done|]. split.
  { unfold probe_events. f_equal. clear. induction attempts as [|a l IH]; [done|].
    rewrite !bind_cons, IH. f_equal. destruct (decide (a = Resp 200)) as [->|Ha]; [done|].
    by apply attempt_events_failed. }
  unfold maxRetries in *. destruct (retry_loop net 3 _ t).1.
  - destruct Hb as (Hlen & failed & -> & Hf). split; [|by exists failed].
    rewrite length_app in *. simpl in *. lia.
  - destruct Hb as [Hlen Hf]. split; [lia|done].
Qed.

(** X14: on a network that answers every health check of the backend with
    200 the probe makes one request and no pause; on a network that never
    answers one with 200 it makes exactly three requests, each followed by
    a pause, and reports the backend unhealthy. *)
Theorem probe_steady_network (server : Server) (t : trace) :
  healthCheckPath server <> "" ->
  ((forall t0, net t0 (health_url URL_String server) = Resp 200) ->
   healthy server t = (true, EvGet (health_url URL_String server) (Resp 200) :: t)) /\
  ((forall t0, net t0 (health_url URL_String server) <> Resp 200) ->
   exists a1 a2 a3,
     a1 <> Resp 200 /\ a2 <> Resp 200 /\ a3 <> Resp 200 /\
     healthy server t =
       (false,
        [EvSleep 1; EvGet (health_url URL_String server) a3;
         EvSleep 1; EvGet (health_url URL_String server) a2;
         EvSleep 1; EvGet (health_url URL_String server) a1] ++ t)).
Proof.
  intros Hpath. unfold isServerHealthy. destruct (decide _) as [|_]; [done|].
  split.
  - intros Hup. simpl. by rewrite Hup.
  - intros Hdown. simpl.
    assert (forall t0, attempt_failed (net t0 (health_url URL_String server)) = true) as Hf
      by (intros t0; apply attempt_failed_true, Hdown).
    rewrite !Hf. eexists _, _, _. split; [|split; [|split; [|reflexivity]]]; apply Hdown.
Qed.

(** The candidates of a run, counted. *)
Lemma unhealthy_run_counted (cands : list Server) (t t' : trace) :
  unhealthy_run cands t t' ->
  exists new,
    t' = new ++ t /\
    client_events new = [] /\
    (length (gets new) <= 3 * length cands)%nat /\
    (length (sleeps new) <= 3 * length cands)%nat.
Proof.
  induction 1 as [t|server rest t t1 t2 Hh _ IH].
  - exists []. simpl. repeat split; try done; lia.
  - destruct IH as (new2 & -> & Hc2 & Hg2 & Hs2).
    destruct (healthy_counted server t) as (new1 & Ht & Hc1 & Hg1 & _ & Hcount).
    rewrite Hh in Ht, Hcount. simpl in Ht, Hcount. subst t1.
    exists (new2 ++ new1). split; [by rewrite (assoc_L (++))|].
    split; [by rewrite client_events_app, Hc1, Hc2|].
    rewrite gets_app, sleeps_app, !length_app. simpl.
    assert (length (sleeps new1) <= 3)%nat.
    { destruct (decide (healthCheckPath server = "")) as [Hempty|Hpath].
      - rewrite (isServerHealthy_no_path URL_String net server t Hempty) in Hh. done.
      - destruct (Hcount Hpath) as (_ & Hlen & _). lia. }
    split; lia.
Qed.

End ProbeBounds.

Lemma probe_pauses_witness :
  healthCheckPath s8081 <> "" /\
  exists attempts,
    (isServerHealthy render net_slow s8081 []).2 =
      probe_events (health_url render s8081) attempts ++ [] /\
    probe_events (health_url render s8081) attempts =
      reverse (attempts ≫= fun a =>
                 if decide (a = Resp 200)
                 then [EvGet (health_url render s8081) a]
                 else [EvGet (health_url render s8081) a; EvSleep 1]) /\
    (1 <= length attempts <= 3)%nat /\
    if (isServerHealthy render net_slow s8081 []).1
    then exists failed, attempts = failed ++ [Resp 200] /\
                        Forall (fun a => a <> Resp 200) failed
    else length attempts = 3%nat /\ Forall (fun a => a <> Resp 200) attempts.
Proof.
  split; [discriminate|].
  apply (probe_pauses render net_slow s8081 []). discriminate.
Defined.

Lemma probe_steady_network_witness :
  isServerHealthy render net_up s8081 [] =
    (true, [EvGet (health_url render s8081) (Resp 200)]) /\
  exists a1 a2 a3,
    a1 <> Resp 200 /\ a2 <> Resp 200 /\ a3 <> Resp 200 /\
    isServerHealthy render net_500 s8081 [] =
      (false,
       [EvSleep 1; EvGet (health_url render s8081) a3;
        EvSleep 1; EvGet (health_url render s8081) a2;
        EvSleep 1; EvGet (health_url render s8081) a1] ++ []).
Proof.
  split.
  - apply (proj1 (probe_steady_network render net_up s8081 [] ltac:(discriminate))).
    intros t0. reflexivity.
  - apply (proj2 (probe_steady_network render net_500 s8081 [] ltac:(discriminate))).
    intros t0. discriminate.
Defined.

(** ** The flat program: construction, single requests, sequences *)

Section FlatBehaviour.

Variable URL_String : URL -> string.
Variable net : trace -> string -> get_result.
Variable url_Parse : string -> option URL.

Local Abbreviation healthy := (isServerHealthy URL_String net).
Local Abbreviation unhealthy_run := (probed_unhealthy URL_String net).
Local Abbreviation ServeHTTP := (Flat.ServeHTTP URL_String net).
Local Abbreviation serve_all := (Flat.serve_all URL_String net).

Lemma parse_servers_mapM (serverURLs : list string) (healthCheckPath : string)
    (acc : list Server) :
  Flat.parse_servers url_Parse serverURLs healthCheckPath acc =
    match mapM url_Parse serverURLs with
    | Some urls => Ok (acc ++ ((fun u => mkServer u healthCheckPath) <$> urls))
    | None => Panic
    end.
Proof.
  revert acc. induction serverURLs as [|urlStr rest IH]; intros acc; simpl.
  - by rewrite app_nil_r.
  - destruct (url_Parse urlStr) as [u|]; simpl; [|done].
    rewrite IH. destruct (mapM url_Parse rest) as [urls|]; simpl; [|done].
    by rewrite <- (assoc_L (++)).
Qed.

(** X1: [NewLoadBalancer] panics exactly when one of the addresses does not
    parse; otherwise the balancer holds one server per address, in the
    order given, each with the parsed address and the one health-check path
    passed in, and its index is 0. *)
Theorem NewLoadBalancer_servers (serverURLs : list string) (healthCheckPath : string) :
  Flat.NewLoadBalancer url_Parse serverURLs healthCheckPath =
    match mapM url_Parse serverURLs with
    | Some urls =>
        Ok {| Flat.servers := (fun u => mkServer u healthCheckPath) <$> urls;
              Flat.index := 0 |}
    | None => Panic
    end.
Proof.
  unfold Flat.NewLoadBalancer. rewrite parse_servers_mapM.
  by destruct (mapM url_Parse serverURLs).
Qed.

Lemma selections_servers (j : nat) (lb lbj : Flat.LoadBalancer) (cands : list Server) :
  Flat.selections j lb = Ok (cands, lbj) ->
  length cands = j /\ Flat.servers lbj = Flat.servers lb.
Proof.
  revert lb cands. induction j as [|j IH]; intros lb cands; simpl.
  - by intros [= <- <-].
  - destruct (Flat.select lb) as [[server lb1]|] eqn:Hsel; [|done]. simpl.
    destruct (Flat.selections j lb1) as [[rest lb2]|] eqn:Hrest; [|done]. simpl.
    intros [= <- <-]. apply IH in Hrest as [<- ->].
    apply select_servers in Hsel as [-> _]. done.
Qed.

(** X2: a request on a well-formed balancer never panics, leaves the list
    of servers as it was and the index in range; a request answered 503
    leaves the index where it was, so that the next request starts from the
    same server. *)
Theorem ServeHTTP_keeps_pool (lb : Flat.LoadBalancer) (r : Request) (t : trace) :
  Flat.wf lb ->
  exists lb' t',
    ServeHTTP lb r t = Ok (lb', t') /\
    Flat.wf lb' /\
    Flat.servers lb' = Flat.servers lb /\
    (head t' = Some unavailable -> lb' = lb).
Proof.
  intros Hwf.
  destruct (Flat_ServeHTTP_run URL_String net lb r t Hwf)
    as (lb' & t' & j & t1 & Hrun & Hwf' & _ & _ & Hend).
  exists lb', t'. do 2 (split; [done|]).
  destruct Hend as [(_ & -> & ->)|(server & t2 & _ & _ & Hs & _ & ->)]; [done|].
  split; [done|]. intros [=].
Qed.

(** X3: on a balancer whose list of servers fits an [int], a request
    panics exactly when the list is not empty and the index is outside it:
    the handler reads [lb.servers[lb.index]] before any check. *)
Theorem ServeHTTP_panics_iff (lb : Flat.LoadBalancer) (r : Request) (t : trace) :
  len (Flat.servers lb) <= int_max ->
  ServeHTTP lb r t = Panic <->
  Flat.servers lb <> [] /\ ~ (0 <= Flat.index lb < len (Flat.servers lb)).
Proof.
  intros Hfits. split.
  - intros Hpanic.
    destruct (decide (0 <= Flat.index lb < len (Flat.servers lb))) as [Hin|Hout].
    + destruct (dispatch_total URL_String net (length (Flat.servers lb)) lb r t)
        as (lb' & t' & Hrun & _); [by split|].
      unfold Flat.ServeHTTP in Hpanic. congruence.
    + split; [|done]. intros Hempty. unfold Flat.ServeHTTP in Hpanic.
      by rewrite Hempty in Hpanic.
  - intros [Hne Hout]. unfold Flat.ServeHTTP.
    destruct (Flat.servers lb) as [|s0 rest] eqn:Hs; [done|]. simpl.
    unfold Flat.select. rewrite Hs.
    destruct (at_index (s0 :: rest) (Flat.index lb)) as [server|] eqn:Hat; [|done].
    exfalso. apply Hout. apply at_index_lookup in Hat as [Hge Hlook].
    apply lookup_lt_Some in Hlook. unfold len. lia.
Qed.

(** X4: as long as one server of the pool always passes its health check,
    no request is answered 503: the request is forwarded to a server of the
    pool that was just probed healthy. *)
Theorem healthy_server_served (lb : Flat.LoadBalancer) (r : Request) (t : trace)
    (good : Server) :
  Flat.wf lb ->
  good ∈ Flat.servers lb ->
  (forall t0, t `suffix_of` t0 -> (healthy good t0).1 = true) ->
  exists lb' server t1 t2,
    ServeHTTP lb r t = Ok (lb', forwarded server r :: t2) /\
    server ∈ Flat.servers lb /\
    healthy server t1 = (true, t2).
Proof.
  intros Hwf Hgood Hup.
  destruct (Flat_ServeHTTP_run URL_String net lb r t Hwf)
    as (lb' & t' & j & t1 & Hrun & _ & _ & Hp & Hend).
  destruct Hend as [(-> & _ & _)|(server & t2 & Hs & Hh & _ & _ & ->)].
  - exfalso. rewrite take_ge in Hp by (by rewrite length_rotate).
    destruct (unhealthy_run_all_unhealthy URL_String net _ _ _ Hp good)
      as (t0 & t3 & Ht0 & _ & Hbad); [by apply elem_of_rotate|].
    specialize (Hup t0 Ht0). rewrite Hbad in Hup. done.
  - exists lb', server, t1, t2. split; [done|]. split; [|done].
    by apply list_elem_of_lookup_2, elem_of_rotate in Hs.
Qed.

(** X5: one request makes at most three health checks per server of the
    pool, and pauses at most three seconds per server. *)
Theorem ServeHTTP_probe_bound (lb lb' : Flat.LoadBalancer) (r : Request) (t t' : trace) :
  ServeHTTP lb r t = Ok (lb', t') ->
  exists new,
    t' = new ++ t /\
    (length (gets new) <= 3 * length (Flat.servers lb))%nat /\
    (length (sleeps new) <= 3 * length (Flat.servers lb))%nat /\
    Forall (fun s => s = 1) (sleeps new).
Proof.
  intros Hrun. unfold Flat.ServeHTTP in Hrun.
  destruct (dispatch_run URL_String net _ _ _ _ _ _ Hrun)
    as (j & cands & lbj & t1 & Hsels & Hp & Hend).
  apply selections_servers in Hsels as [Hlen _].
  assert (forall cs a b, unhealthy_run cs a b ->
            exists new, b = new ++ a /\ Forall (fun s => s = 1) (sleeps new)) as Hones.
  { induction 1 as [a|server rest a a1 a2 Hh _ (new2 & -> & Hs2)].
    - by exists [].
    - destruct (healthy_counted URL_String net server a) as (new1 & Ha & _ & _ & Hs1 & _).
      rewrite Hh in Ha. simpl in Ha. subst a1.
      exists (new2 ++ new1). split; [by rewrite (assoc_L (++))|].
      rewrite sleeps_app. by apply Forall_app. }
  destruct (unhealthy_run_counted URL_String net _ _ _ Hp) as (new1 & -> & _ & Hg1 & Hs1).
  destruct (Hones _ _ _ Hp) as (new1' & Heq & Hone1).
  apply app_inv_tail in Heq as <-.
  destruct Hend as [(<- & _ & ->)|(Hlt & server & t2 & _ & Hh & ->)].
  - exists (unavailable :: new1). split; [done|].
    change (unavailable :: new1) with ([unavailable] ++ new1).
    rewrite gets_app, sleeps_app, !length_app. simpl. rewrite app_nil_r.
    split; [lia|]. split; [lia|done].
  - destruct (healthy_counted URL_String net server (new1 ++ t))
      as (new2 & Ht2 & _ & Hg2 & Hone2 & Hcount).
    rewrite Hh in Ht2, Hcount. simpl in Ht2, Hcount. subst t2.
    assert (length (sleeps new2) <= 2)%nat.
    { destruct (decide (healthCheckPath server = "")) as [Hempty|Hpath].
      - rewrite (isServerHealthy_no_path URL_String net server _ Hempty) in Hh.
        injection Hh as Hh. symmetry in Hh.
        rewrite <- (app_nil_l (new1 ++ t)) in Hh at 2.
        apply app_inv_tail in Hh as ->. simpl. lia.
      - destruct (Hcount Hpath) as (_ & Hlen2 & _). lia. }
    exists (forwarded server r :: new2 ++ new1). split; [by rewrite (assoc_L (++))|].
    change (forwarded server r :: new2 ++ new1) with ([forwarded server r] ++ new2 ++ new1).
    rewrite !gets_app, !sleeps_app, !length_app. simpl. rewrite !app_nil_r.
    split; [lia|]. split; [lia|]. by apply Forall_app.
Qed.

(** X6: a request that returns has sent exactly one thing to the client:
    the 503, or the request handed to the reverse proxy of a server of the
    pool. *)
Theorem ServeHTTP_one_response (lb lb' : Flat.LoadBalancer) (r : Request) (t t' : trace) :
  ServeHTTP lb r t = Ok (lb', t') ->
  exists e,
    head t' = Some e /\
    client_events t' = e :: client_events t /\
    (e = unavailable \/
     exists server, server ∈ Flat.servers lb /\ e = forwarded server r).
Proof.
  intros Hrun. unfold Flat.ServeHTTP in Hrun.
  destruct (dispatch_run URL_String net _ _ _ _ _ _ Hrun)
    as (j & cands & lbj & t1 & Hsels & Hp & Hend).
  apply selections_servers in Hsels as [_ Hservers].
  apply unhealthy_run_client_events in Hp.
  destruct Hend as [(_ & _ & ->)|(_ & server & t2 & Hsel & Hh & ->)].
  - exists unavailable. split; [done|]. split; [|by left]. simpl. by rewrite Hp.
  - exists (forwarded server r). split; [done|]. split.
    + simpl. f_equal.
      pose proof (isServerHealthy_client_events URL_String net server t1) as Hc.
      rewrite Hh in Hc. simpl in Hc. by rewrite Hc.
    + right. exists server. split; [|done].
      apply select_servers in Hsel as [_ Hin]. by rewrite <- Hservers.
Qed.

End FlatBehaviour.

(** ** The flat program over a sequence of requests *)

Section FlatSequences.

Variable URL_String : URL -> string.
Variable net : trace -> string -> get_result.
Variable url_Parse : string -> option URL.

Local Abbreviation healthy := (isServerHealthy URL_String net).
Local Abbreviation ServeHTTP := (Flat.ServeHTTP URL_String net).
Local Abbreviation serve_all := (Flat.serve_all URL_String net).

Lemma serve_all_run (requests : list Request) (lb : Flat.LoadBalancer) (t : trace) :
  Flat.wf lb ->
  exists lb' t',
    serve_all requests lb t = Ok (lb', t') /\
    Flat.wf lb' /\
    Flat.servers lb' = Flat.servers lb /\
    length (client_events t') = (length requests + length (client_events t))%nat.
Proof.
  revert lb t. induction requests as [|r rest IH]; intros lb t Hwf; simpl.
  - by exists lb, t.
  - destruct (Flat_ServeHTTP_run URL_String net lb r t Hwf)
      as (lb1 & t1 & j & t0 & -> & Hwf1 & _ & Hp & Hend). simpl.
    destruct (IH lb1 t1 Hwf1) as (lb' & t' & -> & Hwf' & Hs & Hlen).
    exists lb', t'. do 2 (split; [done|]).
    apply unhealthy_run_client_events in Hp.
    destruct Hend as [(_ & -> & ->)|(server & t2 & _ & Hh & Hs1 & _ & ->)].
    + split; [done|]. rewrite Hlen. simpl. rewrite Hp. lia.
    + split; [congruence|]. rewrite Hlen. simpl.
      pose proof (isServerHealthy_client_events URL_String net server t0) as Hc.
      rewrite Hh in Hc. simpl in Hc. rewrite Hc, Hp. lia.
Qed.

(** X7: requests handled one after the other on a well-formed balancer
    never panic, however many there are and whatever the network answers;
    the list of servers is never changed, the index stays in range, and
    every request gets exactly one response. *)
Theorem serve_all_keeps_pool (requests : list Request) (lb : Flat.LoadBalancer)
    (t : trace) :
  Flat.wf lb ->
  exists lb' t',
    serve_all requests lb t = Ok (lb', t') /\
    Flat.servers lb' = Flat.servers lb /\
    0 <= Flat.index lb' < len (Flat.servers lb) /\
    length (client_events t') = (length requests + length (client_events t))%nat.
Proof.
  intros Hwf. destruct (serve_all_run requests lb t Hwf) as (lb' & t' & H & Hwf' & Hs & Hlen).
  exists lb', t'. split; [done|]. split; [done|]. split; [|done].
  destruct Hwf' as [Hidx _]. by rewrite Hs in Hidx.
Qed.

Lemma serve_all_healthy (requests : list Request) (lb : Flat.LoadBalancer) (t : trace) :
  Flat.wf lb ->
  (forall server t0, server ∈ Flat.servers lb -> (healthy server t0).1 = true) ->
  exists picked lb' t',
    Flat.selections (length requests) lb = Ok (picked, lb') /\
    serve_all requests lb t = Ok (lb', t') /\
    targets t' = targets t ++ (Server_URL <$> picked).
Proof.
  revert lb t. induction requests as [|r rest IH]; intros lb t Hwf Hup; simpl.
  - exists [], lb, t. by rewrite app_nil_r.
  - destruct (select_wf lb Hwf) as (server & Hlook & Hsel & Hwf1).
    rewrite Hsel. simpl. unfold Flat.ServeHTTP.
    assert (exists k, length (Flat.servers lb) = S k) as [k Hk].
    { apply lookup_lt_Some in Hlook. destruct (length (Flat.servers lb)); [lia|eauto]. }
    rewrite Hk. simpl. rewrite Hsel. simpl.
    pose proof (Hup server t (list_elem_of_lookup_2 _ _ _ Hlook)) as Hh.
    destruct (isServerHealthy_extends URL_String net server t) as (new & Hnew & Hc).
    destruct (healthy server t) as [b t2]. simpl in Hh, Hnew. subst b t2. simpl.
    set (lb1 := {| Flat.servers := Flat.servers lb;
                   Flat.index := (Flat.index lb + 1) mod len (Flat.servers lb) |}) in *.
    destruct (IH lb1 (forwarded server r :: new ++ t) Hwf1 Hup)
      as (picked & lb' & t' & Hs1 & Hr1 & Ht').
    exists (server :: picked), lb', t'. split; [by rewrite Hs1|]. split; [exact Hr1|].
    rewrite Ht'. change (forwarded server r :: new ++ t) with ([forwarded server r] ++ new ++ t).
    rewrite !targets_app, (targets_no_client_events new Hc). simpl.
    by rewrite app_nil_r, <- (assoc_L (++)).
Qed.

(** X8: round robin across requests. While every server passes its health
    check, the requests handled one after the other are forwarded to the
    servers in rotation order, starting at the index, one server further
    for each request; [len(servers)] requests in a row reach every server
    exactly once and leave the index where it was. *)
Theorem round_robin_across_requests (requests : list Request) (lb : Flat.LoadBalancer)
    (t : trace) :
  Flat.wf lb ->
  (forall server t0, server ∈ Flat.servers lb -> (healthy server t0).1 = true) ->
  exists picked lb' t',
    serve_all requests lb t = Ok (lb', t') /\
    targets t' = targets t ++ (Server_URL <$> picked) /\
    length picked = length requests /\
    (forall j : nat, (j < length requests)%nat ->
       picked !! j =
         Flat.servers lb !! Z.to_nat ((Flat.index lb + Z.of_nat j) mod len (Flat.servers lb))) /\
    (length requests = length (Flat.servers lb) -> picked ≡ₚ Flat.servers lb /\ lb' = lb).
Proof.
  intros Hwf Hup.
  destruct (serve_all_healthy requests lb t Hwf Hup) as (picked & lb' & t' & Hsels & Hrun & Ht).
  exists picked, lb', t'. do 2 (split; [done|]).
  destruct (selections_wf (length requests) lb Hwf) as (picked' & Hsels' & Hlen & Hlook).
  assert (picked' = picked) as -> by congruence.
  do 2 (split; [done|]). intros Hn. rewrite Hn, selections_round in Hsels by done.
  injection Hsels as <- <-. split; [|done].
  unfold rotate. rewrite Permutation_app_comm. by rewrite take_drop.
Qed.

Lemma serve_all_empty (requests : list Request) (i : Z) (t : trace) :
  serve_all requests {| Flat.servers := []; Flat.index := i |} t =
    Ok ({| Flat.servers := []; Flat.index := i |}, replicate (length requests) unavailable ++ t).
Proof.
  revert t. induction requests as [|r rest IH]; intros t; simpl; [done|].
  rewrite IH. do 2 f_equal.
  clear IH. generalize (length rest). intros k.
  induction k as [|k IHk]; cbn [replicate app]; [done|]. by rewrite IHk.
Qed.

(** X9: a balancer that [NewLoadBalancer] returned serves any sequence of
    requests without panic, keeps its servers, and answers each request
    once; built from no address at all, it answers every request 503
    without a single health check. *)
Theorem NewLoadBalancer_serves (serverURLs : list string) (healthCheckPath : string)
    (lb : Flat.LoadBalancer) (requests : list Request) (t : trace) :
  Flat.NewLoadBalancer url_Parse serverURLs healthCheckPath = Ok lb ->
  len serverURLs <= int_max ->
  exists lb' t',
    serve_all requests lb t = Ok (lb', t') /\
    Flat.servers lb' = Flat.servers lb /\
    length (client_events t') = (length requests + length (client_events t))%nat /\
    (serverURLs = [] -> t' = replicate (length requests) unavailable ++ t).
Proof.
  intros Hnew Hfits. destruct serverURLs as [|urlStr rest].
  - injection Hnew as <-. eexists _, _. split; [apply serve_all_empty|].
    split; [done|]. split; [|done].
    rewrite client_events_app, length_app. f_equal.
    induction requests as [|r rs IH]; simpl; [done|]. by rewrite IH.
  - apply NewLoadBalancer_wf in Hnew as (_ & _ & Hwf).
    destruct (serve_all_run requests lb t (Hwf ltac:(done) Hfits))
      as (lb' & t' & Hrun & _ & Hs & Hlen).
    exists lb', t'. by repeat split.
Qed.

End FlatSequences.

(** ** The target-group program *)

Section GroupsBehaviour.

Variable URL_String : URL -> string.
Variable net : trace -> string -> get_result.

Local Abbreviation healthy := (isServerHealthy URL_String net).

(** X10: the target-group handler never panics, whatever the groups, the
    request and the network; it sends exactly one thing to the client: the
    503, or the request handed to the reverse proxy of a server of a group
    whose path is the path of the request. *)
Theorem Groups_ServeHTTP_total (glb : Groups.LoadBalancer) (r : Request) (t : trace) :
  exists t' e,
    Groups.ServeHTTP URL_String net glb r t = Ok t' /\
    head t' = Some e /\
    client_events t' = e :: client_events t /\
    (e = unavailable \/
     exists pool server,
       pool ∈ Groups.targetGroups glb /\
       Groups.URIPath pool = Path (Request_URL r) /\
       server ∈ Groups.Servers pool /\
       e = forwarded server r).
Proof.
  unfold Groups.ServeHTTP.
  destruct (range_groups_total URL_String net (Groups.targetGroups glb) r t) as [t' Hrun].
  destruct (range_groups_run URL_String net _ _ _ _ Hrun) as (past & t1 & Hp & Hend).
  apply unhealthy_run_client_events in Hp.
  destruct Hend as [[_ ->]|(pool & rest & server & t2 & Hg & Hpath & Hnext & Hh & ->)].
  - exists (unavailable :: t1), unavailable. split; [done|]. split; [done|].
    split; [|by left]. simpl. by rewrite Hp.
  - exists (forwarded server r :: t2), (forwarded server r). split; [done|]. split; [done|].
    split.
    + simpl. f_equal.
      pose proof (isServerHealthy_client_events URL_String net server t1) as Hc.
      rewrite Hh in Hc. simpl in Hc. by rewrite Hc.
    + right. exists pool, server. split; [rewrite Hg; apply elem_of_app; right; left|].
      split; [done|]. split; [|done]. apply (candidate_elem_of pool).
      rewrite candidate_spec in Hnext. by injection Hnext.
Qed.

Lemma length_candidates (r : Request) (groups : list Groups.TargetGroup) :
  (length (Groups.candidates r groups) <=
   length (filter (fun tg => Path (Request_URL r) = Groups.URIPath tg) groups))%nat.
Proof.
  unfold Groups.candidates.
  induction (filter _ groups) as [|tg l IH]; simpl; [done|].
  change (list_omap _ _ Groups.candidate l) with (omap Groups.candidate l).
  destruct (Groups.candidate tg); simpl; lia.
Qed.

(** The health checks of one probe: at most three, all to the health URL
    of the server probed. *)
Lemma healthy_gets (server : Server) (t : trace) :
  exists new,
    (healthy server t).2 = new ++ t /\
    (length (gets new) <= 3)%nat /\
    Forall (fun g => g.1 = health_url URL_String server) (gets new).
Proof.
  unfold isServerHealthy. destruct (decide _) as [Hempty|Hpath].
  - exists []. by repeat split; simpl; try lia.
  - destruct (retry_loop_spec URL_String net maxRetries (health_url URL_String server) t)
      as (new & attempts & Ht & _ & _ & Hg & _ & Hb).
    exists new. split; [done|]. rewrite Hg, length_fmap. split.
    + unfold maxRetries in Hb. destruct (retry_loop net 3 _ t).1.
      * by destruct Hb as (? & ? & _ & _ & _ & Hlen).
      * destruct Hb as [-> _]. lia.
    + apply Forall_fmap. by apply Forall_true.
Qed.

(** The health checks of a run of unhealthy candidates, candidate by
    candidate. *)
Lemma unhealthy_run_gets (cands : list Server) (t t' : trace) :
  probed_unhealthy URL_String net cands t t' ->
  exists new chunks,
    t' = new ++ t /\
    gets new = concat chunks /\
    Forall2 (fun server chunk =>
               (length chunk <= 3)%nat /\
               Forall (fun g => g.1 = health_url URL_String server) chunk)
      cands chunks.
Proof.
  induction 1 as [t|server rest t t1 t2 Hh _ IH].
  - exists [], []. by repeat split.
  - destruct IH as (new2 & chunks & -> & Hg2 & Hall).
    destruct (healthy_gets server t) as (new1 & Ht & Hlen & Hurls).
    rewrite Hh in Ht. simpl in Ht. subst t1.
    exists (new2 ++ new1), (gets new1 :: chunks). split; [by rewrite (assoc_L (++))|].
    split; [by rewrite gets_app, Hg2|]. by constructor.
Qed.

Lemma candidates_app (r : Request) (a b : list Groups.TargetGroup) :
  Groups.candidates r (a ++ b) = Groups.candidates r a ++ Groups.candidates r b.
Proof. unfold Groups.candidates. by rewrite filter_app, omap_app. Qed.

Lemma elem_of_candidates (r : Request) (groups : list Groups.TargetGroup) (server : Server) :
  server ∈ Groups.candidates r groups ->
  exists pool,
    pool ∈ groups /\ Groups.URIPath pool = Path (Request_URL r) /\
    Groups.getNextServer pool = Ok (Some server).
Proof.
  unfold Groups.candidates. intros (pool & Hin & Hcand)%list_elem_of_omap.
  apply list_elem_of_filter in Hin as [Hpath Hin].
  exists pool. split; [done|]. split; [done|]. by rewrite candidate_spec, Hcand.
Qed.

Lemma chunks_urls (groups : list Groups.TargetGroup) (r : Request)
    (probed : list Server) (chunks : list (list (string * get_result))) :
  (forall server, server ∈ probed -> server ∈ Groups.candidates r groups) ->
  Forall2 (fun server chunk =>
             (length chunk <= 3)%nat /\
             Forall (fun g => g.1 = health_url URL_String server) chunk)
    probed chunks ->
  (length (concat chunks) <= 3 * length probed)%nat /\
  Forall (fun g => exists pool server,
            pool ∈ groups /\ Groups.URIPath pool = Path (Request_URL r) /\
            Groups.getNextServer pool = Ok (Some server) /\
            g.1 = health_url URL_String server)
    (concat chunks).
Proof.
  intros Hin Hall. induction Hall as [|server chunk probed chunks [Hlen Hurls] _ IH].
  - split; [simpl; lia|constructor].
  - destruct IH as [Hlens Hrest]; [intros s Hs; apply Hin; by right|].
    simpl. rewrite length_app. split; [lia|]. apply Forall_app. split; [|done].
    destruct (elem_of_candidates r groups server) as (pool & ? & ? & ?); [apply Hin; left|].
    eapply Forall_impl; [exact Hurls|]. intros g Hg. by exists pool, server.
Qed.

(** X11: the health checks of one request to the target-group handler go,
    in order, to the candidates of the groups whose path is the path of the
    request, in configuration order, one candidate per group: at most three
    GETs to the health URL of the first candidate, then at most three to
    that of the second, and so on. No GET goes to another URL, so a group
    with another path is never probed. *)
Theorem Groups_probe_bound (glb : Groups.LoadBalancer) (r : Request) (t : trace) :
  exists (new : trace) (probed : list Server) (chunks : list (list (string * get_result))),
    Groups.ServeHTTP URL_String net glb r t = Ok (new ++ t) /\
    probed `prefix_of` Groups.candidates r (Groups.targetGroups glb) /\
    gets new = concat chunks /\
    Forall2 (fun server chunk =>
               (length chunk <= 3)%nat /\
               Forall (fun g => g.1 = health_url URL_String server) chunk)
      probed chunks /\
    Forall (fun g => exists pool server,
              pool ∈ Groups.targetGroups glb /\
              Groups.URIPath pool = Path (Request_URL r) /\
              Groups.getNextServer pool = Ok (Some server) /\
              g.1 = health_url URL_String server)
      (gets new) /\
    (length (gets new) <=
     3 * length (filter (fun tg => Path (Request_URL r) = Groups.URIPath tg)
                   (Groups.targetGroups glb)))%nat.
Proof.
  unfold Groups.ServeHTTP.
  destruct (range_groups_total URL_String net (Groups.targetGroups glb) r t) as [t' Hrun].
  destruct (range_groups_run URL_String net _ _ _ _ Hrun) as (past & t1 & Hp & Hend).
  destruct (unhealthy_run_gets _ _ _ Hp) as (new1 & chunks1 & -> & Hg1 & Hall1).
  pose proof (length_candidates r (Groups.targetGroups glb)) as Hcands.
  assert (forall new probed chunks,
            probed `prefix_of` Groups.candidates r (Groups.targetGroups glb) ->
            gets new = concat chunks ->
            Forall2 (fun server chunk =>
                       (length chunk <= 3)%nat /\
                       Forall (fun g => g.1 = health_url URL_String server) chunk)
              probed chunks ->
            Forall (fun g => exists pool server,
                      pool ∈ Groups.targetGroups glb /\
                      Groups.URIPath pool = Path (Request_URL r) /\
                      Groups.getNextServer pool = Ok (Some server) /\
                      g.1 = health_url URL_String server)
              (gets new) /\
            (length (gets new) <=
             3 * length (filter (fun tg => Path (Request_URL r) = Groups.URIPath tg)
                           (Groups.targetGroups glb)))%nat) as Hsum.
  { intros new probed chunks Hpre Hg Hall. rewrite Hg.
    destruct (chunks_urls (Groups.targetGroups glb) r probed chunks) as [Hlen Hurls];
      [|done|].
    - intros server Hs. destruct Hpre as [k ->]. apply elem_of_app. by left.
    - split; [done|]. apply prefix_length in Hpre. lia. }
  destruct Hend as [[-> ->]|(pool & rest & server & t2 & Hg & Hpath & Hnext & Hh & ->)].
  - assert (gets (unavailable :: new1) = concat chunks1) as Hgets.
    { change (unavailable :: new1) with ([unavailable] ++ new1).
      by rewrite gets_app, Hg1, app_nil_r. }
    exists (unavailable :: new1), (Groups.candidates r (Groups.targetGroups glb)), chunks1.
    split; [by rewrite Hrun|]. split; [done|]. split; [done|]. split; [done|].
    by apply (Hsum _ (Groups.candidates r (Groups.targetGroups glb)) chunks1).
  - destruct (healthy_gets server (new1 ++ t)) as (new2 & Ht2 & Hlen2 & Hurls2).
    rewrite Hh in Ht2. simpl in Ht2. subst t2.
    assert (gets (forwarded server r :: new2 ++ new1) = concat (chunks1 ++ [gets new2]))
      as Hgets.
    { change (forwarded server r :: new2 ++ new1)
        with ([forwarded server r] ++ new2 ++ new1).
      rewrite !gets_app, Hg1, concat_app. simpl. by rewrite !app_nil_r. }
    assert ((Groups.candidates r past ++ [server])
              `prefix_of` Groups.candidates r (Groups.targetGroups glb)) as Hpre.
    { exists (Groups.candidates r rest). rewrite Hg, candidates_app, candidates_cons.
      destruct (decide _); [|done]. unfold Groups.candidate. rewrite Hnext. simpl.
      by rewrite <- (assoc_L (++)). }
    assert (Forall2 (fun server chunk =>
                       (length chunk <= 3)%nat /\
                       Forall (fun g => g.1 = health_url URL_String server) chunk)
              (Groups.candidates r past ++ [server]) (chunks1 ++ [gets new2])) as Hall.
    { apply Forall2_app; [done|]. constructor; [by split|constructor]. }
    exists (forwarded server r :: new2 ++ new1), (Groups.candidates r past ++ [server]),
      (chunks1 ++ [gets new2]).
    split; [rewrite Hrun; simpl; by rewrite (assoc_L (++))|].
    split; [done|]. split; [done|]. split; [done|].
    by apply (Hsum _ (Groups.candidates r past ++ [server]) (chunks1 ++ [gets new2])).
Qed.

End GroupsBehaviour.

(** X12: [getNextServer] never panics and reads nothing but the group: it
    returns nil for a group without servers, the server of a group of one,
    and the second server of any larger group. *)
Theorem getNextServer_second (targetGroup : Groups.TargetGroup) :
  Groups.getNextServer targetGroup =
    Ok match Groups.Servers targetGroup with
       | [] => None
       | [only] => Some only
       | _ :: second :: _ => Some second
       end.
Proof.
  rewrite getNextServer_spec. by destruct (Groups.Servers targetGroup) as [|s0 [|s1 rest]].
Qed.

(** ** The further theorems with hypotheses, at concrete inputs *)

Lemma ServeHTTP_keeps_pool_witness :
  Flat.wf main_flat /\
  exists lb' t',
    Flat.ServeHTTP render net_down main_flat (request "/x") [] = Ok (lb', t') /\
    Flat.wf lb' /\
    Flat.servers lb' = Flat.servers main_flat /\
    (head t' = Some unavailable -> lb' = main_flat).
Proof.
  assert (Flat.wf main_flat) as Hwf by (unfold Flat.wf, len, int_max; simpl; lia).
  split; [exact Hwf|].
  exact (ServeHTTP_keeps_pool render net_down main_flat (request "/x") [] Hwf).
Defined.

Lemma ServeHTTP_panics_iff_witness :
  len [s8081] <= int_max /\
  Flat.ServeHTTP render net_up {| Flat.servers := [s8081]; Flat.index := 5 |}
    (request "/x") [] = Panic.
Proof.
  assert (len [s8081] <= int_max) as Hfits by (unfold len, int_max; simpl; lia).
  split; [exact Hfits|].
  apply (ServeHTTP_panics_iff render net_up
           {| Flat.servers := [s8081]; Flat.index := 5 |} (request "/x") [] Hfits).
  split; [discriminate|]. unfold len. simpl. lia.
Defined.

Lemma healthy_server_served_witness :
  Flat.wf main_flat /\
  s8081 ∈ Flat.servers main_flat /\
  exists lb' server t1 t2,
    Flat.ServeHTTP render net_8081 main_flat (request "/x") [] =
      Ok (lb', forwarded server (request "/x") :: t2) /\
    server ∈ Flat.servers main_flat /\
    isServerHealthy render net_8081 server t1 = (true, t2).
Proof.
  assert (Flat.wf main_flat) as Hwf by (unfold Flat.wf, len, int_max; simpl; lia).
  assert (s8081 ∈ Flat.servers main_flat) as Hin by left.
  split; [exact Hwf|]. split; [exact Hin|].
  apply (healthy_server_served render net_8081 main_flat (request "/x") [] s8081 Hwf Hin).
  intros t0 _. reflexivity.
Defined.

Lemma ServeHTTP_probe_bound_witness :
  exists lb' t',
    Flat.ServeHTTP render net_down main_flat (request "/x") [] = Ok (lb', t') /\
    exists new,
      t' = new ++ [] /\
      (length (gets new) <= 3 * length (Flat.servers main_flat))%nat /\
      (length (sleeps new) <= 3 * length (Flat.servers main_flat))%nat /\
      Forall (fun s => s = 1) (sleeps new).
Proof.
  eexists _, _. split; [reflexivity|].
  exact (ServeHTTP_probe_bound render net_down main_flat _ (request "/x") [] _ eq_refl).
Defined.

Lemma ServeHTTP_one_response_witness :
  exists lb' t',
    Flat.ServeHTTP render net_8081 main_flat (request "/x") [] = Ok (lb', t') /\
    exists e,
      head t' = Some e /\
      client_events t' = e :: client_events [] /\
      (e = unavailable \/
       exists server, server ∈ Flat.servers main_flat /\ e = forwarded server (request "/x")).
Proof.
  eexists _, _. split; [reflexivity|].
  exact (ServeHTTP_one_response render net_8081 main_flat _ (request "/x") [] _ eq_refl).
Defined.

Lemma serve_all_keeps_pool_witness :
  Flat.wf main_flat /\
  exists lb' t',
    Flat.serve_all render net_8081 [request "/a"; request "/b"; request "/c"] main_flat [] =
      Ok (lb', t') /\
    Flat.servers lb' = Flat.servers main_flat /\
    0 <= Flat.index lb' < len (Flat.servers main_flat) /\
    length (client_events t') =
      (length [request "/a"; request "/b"; request "/c"] + length (client_events []))%nat.
Proof.
  assert (Flat.wf main_flat) as Hwf by (unfold Flat.wf, len, int_max; simpl; lia).
  split; [exact Hwf|].
  exact (serve_all_keeps_pool render net_8081
           [request "/a"; request "/b"; request "/c"] main_flat [] Hwf).
Defined.

Lemma round_robin_across_requests_witness :
  Flat.wf main_flat /\
  (forall server t0, server ∈ Flat.servers main_flat ->
     (isServerHealthy render net_up server t0).1 = true) /\
  exists picked lb' t',
    Flat.serve_all render net_up [request "/a"; request "/b"] main_flat [] = Ok (lb', t') /\
    targets t' = targets [] ++ (Server_URL <$> picked) /\
    length picked = length [request "/a"; request "/b"] /\
    (forall j : nat, (j < length [request "/a"; request "/b"])%nat ->
       picked !! j =
         Flat.servers main_flat !!
           Z.to_nat ((Flat.index main_flat + Z.of_nat j) mod len (Flat.servers main_flat))) /\
    (length [request "/a"; request "/b"] = length (Flat.servers main_flat) ->
     picked ≡ₚ Flat.servers main_flat /\ lb' = main_flat).
Proof.
  assert (Flat.wf main_flat) as Hwf by (unfold Flat.wf, len, int_max; simpl; lia).
  assert (forall server t0, server ∈ Flat.servers main_flat ->
            (isServerHealthy render net_up server t0).1 = true) as Hup.
  { intros server t0 Hin. simpl in Hin.
    apply elem_of_cons in Hin as [->|Hin]; [reflexivity|].
    apply list_elem_of_singleton in Hin as ->. reflexivity. }
  split; [exact Hwf|]. split; [exact Hup|].
  exact (round_robin_across_requests render net_up
           [request "/a"; request "/b"] main_flat [] Hwf Hup).
Defined.

Lemma NewLoadBalancer_serves_witness :
  Flat.NewLoadBalancer (fun port => Some (localhost port)) ["8081"; "8082"] "/health" =
    Ok main_flat /\
  len ["8081"; "8082"] <= int_max /\
  exists lb' t',
    Flat.serve_all render net_down [request "/a"; request "/b"] main_flat [] = Ok (lb', t') /\
    Flat.servers lb' = Flat.servers main_flat /\
    length (client_events t') =
      (length [request "/a"; request "/b"] + length (client_events []))%nat /\
    (["8081"; "8082"] = [] ->
     t' = replicate (length [request "/a"; request "/b"]) unavailable ++ []).
Proof.
  assert (len ["8081"; "8082"] <= int_max) as Hfits by (unfold len, int_max; simpl; lia).
  split; [reflexivity|]. split; [exact Hfits|].
  exact (NewLoadBalancer_serves render net_down (fun port => Some (localhost port))
           ["8081"; "8082"] "/health" main_flat [request "/a"; request "/b"] []
           eq_refl Hfits).
Defined.
